(** * DistillerCore: entity extraction, relationship inference, summaries

    A shallow embedding of [ece/agents/tier3/distiller/distiller_core.cpp],
    followed by [engine/src/native/key_assassin.cpp],
    [engine/src/native/fingerprint.cpp] and
    [ece/agents/tier3/qlearning/qlearning_core.cpp].

    - [std::string] is [string]: a sequence of 8-bit characters; ordering
      is [String.compare], which orders characters by their unsigned code
      as [std::char_traits<char>] does.
    - [std::istringstream] is a record holding the characters not yet read
      together with the [eofbit] and [failbit] state flags.
    - [std::map<std::string, V>] is the list of its entries in iteration
      order (ascending keys).
    - [int] is [Z]; the narrowing [static_cast<int>] is written out.
    - A [while] or [for] loop is a function over a fuel counter that
      answers [None] when the fuel runs out; every entry point supplies
      enough fuel, which is proved, so results are stated as [Some _]. *)

From Stdlib Require Import ZArith List Bool Ascii String Lia.
From Stdlib Require Import Sorted Permutation OrderedTypeEx.
Import ListNotations.

Open Scope string_scope.
Open Scope list_scope.
Open Scope Z_scope.

(** ** Iteration helpers *)

(** A range-based [for] over a container, threading the state the body
    mutates. *)
Definition for_each {A S : Type} (l : list A) (body : A -> S -> S) (s : S) : S :=
  fold_left (fun st a => body a st) l s.

(** [v.push_back(x)]. *)
Definition push_back {A : Type} (v : list A) (x : A) : list A := v ++ [x].

(** ** std::istringstream *)

Record istringstream : Type := mkStream {
  pending : string;   (* characters of the buffer not yet extracted *)
  eofbit : bool;
  failbit : bool
}.

(** [std::istringstream iss(text)]. *)
Definition open_stream (text : string) : istringstream := mkStream text false false.

(** [good()]: no state flag is set. *)
Definition good (iss : istringstream) : bool :=
  negb (eofbit iss) && negb (failbit iss).

(** [operator bool]: [!fail()]. *)
Definition stream_ok (iss : istringstream) : bool := negb (failbit iss).

Definition is_empty (s : string) : bool :=
  match s with EmptyString => true | String _ _ => false end.

(** Characters up to the first [delim], the characters after it, and
    whether the delimiter was met before the end of the buffer. *)
Fixpoint read_until (delim : ascii) (s : string) : string * string * bool :=
  match s with
  | EmptyString => (EmptyString, EmptyString, false)
  | String c s' =>
      if Ascii.eqb c delim then (EmptyString, s', true)
      else let '(line, rest, hit) := read_until delim s' in
           (String c line, rest, hit)
  end.

(** [std::getline(iss, str, delim)]: the stream afterwards and the new
    value of [str].  On a stream that is not good the sentry fails:
    [failbit] is set and [str] is left alone.  Otherwise characters are
    moved to [str] until the delimiter (extracted, not stored) or the end
    of the buffer (which sets [eofbit]); extracting nothing at all sets
    [failbit]. *)
Definition getline (iss : istringstream) (str : string) (delim : ascii)
  : istringstream * string :=
  if good iss then
    let '(line, rest, hit) := read_until delim (pending iss) in
    (mkStream rest (negb hit) (negb hit && is_empty line), line)
  else (mkStream (pending iss) (eofbit iss) true, str).

(** [std::isspace] in the classic locale. *)
Definition isspace (c : ascii) : bool :=
  let n := nat_of_ascii c in
  (Nat.eqb n 32 || (Nat.leb 9 n && Nat.leb n 13))%bool.

(** Leading whitespace skipped by the input sentry. *)
Fixpoint skipws (s : string) : string :=
  match s with
  | EmptyString => EmptyString
  | String c s' => if isspace c then skipws s' else s
  end.

(** Characters up to the next whitespace, what follows, and whether the
    end of the buffer was reached. *)
Fixpoint read_word (s : string) : string * string * bool :=
  match s with
  | EmptyString => (EmptyString, EmptyString, true)
  | String c s' =>
      if isspace c then (EmptyString, s, false)
      else let '(w, rest, ateof) := read_word s' in (String c w, rest, ateof)
  end.

(** [iss >> token]: the sentry skips whitespace and fails (setting
    [eofbit] and [failbit]) when nothing but whitespace is left; otherwise
    the maximal run of non-whitespace characters is extracted. *)
Definition extract_word (iss : istringstream) (token : string)
  : istringstream * string :=
  if good iss then
    match skipws (pending iss) with
    | EmptyString => (mkStream EmptyString true true, token)
    | String c s' =>
        let '(w, rest, ateof) := read_word (String c s') in
        (mkStream rest ateof (is_empty w), w)
    end
  else (mkStream (pending iss) (eofbit iss) true, token).

(** [while (extract(iss, x)) v.push_back(x);] *)
Fixpoint while_extract (extract : istringstream -> string -> istringstream * string)
    (fuel : nat) (iss : istringstream) (x : string) (v : list string)
  : option (list string) :=
  match fuel with
  | O => None
  | S fuel' =>
      let '(iss', x') := extract iss x in
      if stream_ok iss' then while_extract extract fuel' iss' x' (push_back v x')
      else Some v
  end.

(** ** summarize_text *)

Definition INT_MAX : Z := 2147483647.

(** [static_cast<int>] of a [size_t]: reduction modulo 2^32 into the
    signed range. *)
Definition static_cast_int (z : Z) : Z := (z + 2 ^ 31) mod 2 ^ 32 - 2 ^ 31.

(** [while (iss >> token) tokens.push_back(token);] on a fresh stream. *)
Definition tokenize (text : string) : option (list string) :=
  while_extract extract_word (S (String.length text)) (open_stream text) EmptyString [].

(** The truncation loop
    [for (int i = 0; i < max_length && i < (int)tokens.size(); ++i)].
    [i + 1] cannot overflow: [i < max_length] holds when it is computed. *)
Fixpoint summary_loop (fuel : nat) (tokens : list string) (max_length i : Z)
    (summary : string) : option string :=
  match fuel with
  | O => None
  | S fuel' =>
      if (i <? max_length) && (i <? static_cast_int (Z.of_nat (List.length tokens))) then
        let summary1 := if 0 <? i then (summary ++ " ")%string else summary in
        let summary2 := (summary1 ++ nth (Z.to_nat i) tokens EmptyString)%string in
        summary_loop fuel' tokens max_length (i + 1) summary2
      else Some summary
  end.

Definition summarize_text (text : string) (max_length : Z) : option string :=
  match tokenize text with
  | None => None
  | Some tokens =>
      if static_cast_int (Z.of_nat (List.length tokens)) <=? max_length then Some text
      else summary_loop (S (List.length tokens)) tokens max_length 0 EmptyString
  end.

(** Tokens joined by single spaces. *)
Fixpoint join_spaces (ws : list string) : string :=
  match ws with
  | [] => EmptyString
  | [w] => w
  | w :: ws' => (w ++ " " ++ join_spaces ws')%string
  end.

(** The closed form of tokenization: scan the text once, [cur] being the
    run of non-whitespace characters read so far. *)
Fixpoint scan_words (s : string) (cur : string) : list string :=
  match s with
  | EmptyString => if is_empty cur then [] else [cur]
  | String c s' =>
      if isspace c then
        (if is_empty cur then scan_words s' EmptyString
         else cur :: scan_words s' EmptyString)
      else scan_words s' (cur ++ String c EmptyString)%string
  end.

Definition words (s : string) : list string := scan_words s EmptyString.

(** Every character of [s] satisfies [p]. *)
Fixpoint all_chars (p : ascii -> bool) (s : string) : bool :=
  match s with
  | EmptyString => true
  | String c s' => p c && all_chars p s'
  end.

Definition nonspace (c : ascii) : bool := negb (isspace c).

(** A token: a non-empty run of non-whitespace characters. *)
Definition is_token (w : string) : Prop :=
  w <> EmptyString /\ all_chars nonspace w = true.


(** [n] tokens: the text [a a a ... ], made of [n] times the letter and a
    space. *)
Fixpoint many_tokens (n : nat) : string :=
  match n with
  | O => EmptyString
  | S n' => String "a" (String " " (many_tokens n'))
  end.

(** A text of 2^31 tokens (4 GiB): one more token than [int] can count. *)
Definition overflow_text : string := many_tokens (Z.to_nat (2 ^ 31)).

(** ** Sentence segmentation *)

(** [while (std::getline(iss, sentence, '.')) sentences.push_back(sentence);]
    on a fresh stream over [text]. *)
Definition split_sentences (text : string) : option (list string) :=
  while_extract (fun iss sentence => getline iss sentence ".")
    (S (String.length text)) (open_stream text) EmptyString [].

(** The closed form of the segmentation: scan the text once, [cur] being
    the characters read since the last period. *)
Fixpoint scan_sentences (s : string) (cur : string) : list string :=
  match s with
  | EmptyString => if is_empty cur then [] else [cur]
  | String c s' =>
      if Ascii.eqb c "." then cur :: scan_sentences s' EmptyString
      else scan_sentences s' (cur ++ String c EmptyString)%string
  end.

(** Pieces joined by a period. *)
Fixpoint join_periods (ls : list string) : string :=
  match ls with
  | [] => EmptyString
  | [l] => l
  | l :: ls' => (l ++ "." ++ join_periods ls')%string
  end.

(** The text contains the character [c]. *)
Fixpoint has_char (c : ascii) (s : string) : bool :=
  match s with
  | EmptyString => false
  | String c' s' => Ascii.eqb c' c || has_char c s'
  end.

Fixpoint last_char (s : string) : option ascii :=
  match s with
  | EmptyString => None
  | String c EmptyString => Some c
  | String _ s' => last_char s'
  end.

(** A period when the text ends with one, nothing otherwise. *)
Definition trailing_period (s : string) : string :=
  match last_char s with
  | Some c => if Ascii.eqb c "." then "." else ""
  | None => ""
  end.

(** ** std::string::find *)

(** [s.find(pat)] searching from offset [pos] of the original string, of
    which [s] is what remains: the lowest position where [pat] occurs, or
    [None] for [npos]. *)
Fixpoint find_from (s pat : string) (pos : nat) : option nat :=
  match s with
  | EmptyString => if prefix pat EmptyString then Some pos else None
  | String _ s' => if prefix pat s then Some pos else find_from s' pat (S pos)
  end.

Definition string_find (s pat : string) : option nat := find_from s pat 0.

(** [s.find(pat) != std::string::npos]. *)
Definition contains (s pat : string) : bool :=
  match string_find s pat with Some _ => true | None => false end.

(** [pat] occurs in [s] as a contiguous run of characters. *)
Definition substring_of (pat s : string) : Prop :=
  exists pre post, s = (pre ++ pat ++ post)%string.

(** ** Relationship triples and their order *)

Definition triple : Type := (string * string * string)%type.

Definition subject (t : triple) : string := fst (fst t).
Definition predicate (t : triple) : string := snd (fst t).
Definition object (t : triple) : string := snd t.

(** [operator<] of [std::tuple]: lexicographic, built from [operator<] of
    the components only. *)
Definition triple_ltb (t u : triple) : bool :=
  let '(a1, b1, c1) := t in
  let '(a2, b2, c2) := u in
  (a1 <? a2)%string
  || (negb (a2 <? a1)%string
      && ((b1 <? b2)%string || (negb (b2 <? b1)%string && (c1 <? c2)%string))).

(** [operator==] of [std::tuple]. *)
Definition triple_eqb (t u : triple) : bool :=
  let '(a1, b1, c1) := t in
  let '(a2, b2, c2) := u in
  (a1 =? a2)%string && (b1 =? b2)%string && (c1 =? c2)%string.

(** [std::sort]: the standard fixes the outcome (the range ordered by
    [operator<]), not the algorithm.  Insertion sort stands for it;
    [std_sort_unique] shows that every ordered rearrangement of the input
    is this one, so the choice of algorithm cannot be observed. *)
Fixpoint insert_sorted (x : triple) (l : list triple) : list triple :=
  match l with
  | [] => [x]
  | y :: l' => if triple_ltb y x then y :: insert_sorted x l' else x :: l
  end.

Fixpoint std_sort (l : list triple) : list triple :=
  match l with
  | [] => []
  | x :: l' => insert_sorted x (std_sort l')
  end.

(** [std::unique] followed by [erase]: of every run of consecutive equal
    elements only the first is kept. [kept] is the last element kept. *)
Fixpoint unique_after (kept : triple) (l : list triple) : list triple :=
  match l with
  | [] => []
  | y :: l' =>
      if triple_eqb kept y then unique_after kept l'
      else y :: unique_after y l'
  end.

Definition std_unique (l : list triple) : list triple :=
  match l with
  | [] => []
  | x :: l' => x :: unique_after x l'
  end.

(** ** std::map with string keys *)

Definition std_map (V : Type) : Type := list (string * V).

(** [m[k] = v]: the entry is overwritten, or inserted at its place in key
    order. *)
Fixpoint map_assign {V : Type} (k : string) (v : V) (m : std_map V) : std_map V :=
  match m with
  | [] => [(k, v)]
  | (k', v') :: m' =>
      match (k ?= k')%string with
      | Lt => (k, v) :: m
      | Eq => (k, v) :: m'
      | Gt => (k', v') :: map_assign k v m'
      end
  end.

(** [m.find(k)], [None] for [m.end()]. *)
Fixpoint map_find {V : Type} (k : string) (m : std_map V) : option V :=
  match m with
  | [] => None
  | (k', v) :: m' => if (k =? k')%string then Some v else map_find k m'
  end.

Definition map_keys {V : Type} (m : std_map V) : list string := map fst m.

(** ** extract_relationships *)

Definition relationship_loops (sentences : list string)
    (entities : std_map (list string)) : list triple :=
  for_each sentences (fun sentence relationships =>
    for_each entities (fun '(entity_type1, entity_list1) relationships =>
      for_each entity_list1 (fun entity1 relationships =>
        if contains sentence entity1 then
          for_each entities (fun '(entity_type2, entity_list2) relationships =>
            for_each entity_list2 (fun entity2 relationships =>
              if negb (entity2 =? entity1)%string && contains sentence entity2 then
                let rel_type := ("RELATED_TO_" ++ entity_type2)%string in
                push_back relationships (entity1, rel_type, entity2)
              else relationships) relationships) relationships
        else relationships) relationships) relationships) [].

Definition extract_relationships (text : string)
    (entities : std_map (list string)) : option (list triple) :=
  match split_sentences text with
  | None => None
  | Some sentences =>
      Some (std_unique (std_sort (relationship_loops sentences entities)))
  end.

(** What the two inner loops append for a subject found in the sentence,
    and what the loops over one sentence append. *)
Definition emit_objects (sentence entity1 : string)
    (entities : std_map (list string)) : list triple :=
  flat_map (fun '(entity_type2, entity_list2) =>
    flat_map (fun entity2 =>
      if negb (entity2 =? entity1)%string && contains sentence entity2
      then [(entity1, ("RELATED_TO_" ++ entity_type2)%string, entity2)]
      else []) entity_list2) entities.

Definition emit_subjects (sentence : string)
    (entities : std_map (list string)) : list triple :=
  flat_map (fun '(entity_type1, entity_list1) =>
    flat_map (fun entity1 =>
      if contains sentence entity1
      then emit_objects sentence entity1 entities
      else []) entity_list1) entities.

(** The natural order of triples: by subject, then predicate, then
    object, each compared as strings. *)
Definition string_lt (a b : string) : Prop := (a ?= b)%string = Lt.

Definition triple_lex_lt (t u : triple) : Prop :=
  string_lt (subject t) (subject u)
  \/ (subject t = subject u
      /\ (string_lt (predicate t) (predicate u)
          \/ (predicate t = predicate u /\ string_lt (object t) (object u)))).

Definition triple_lex_le (t u : triple) : Prop := t = u \/ triple_lex_lt t u.

(** Three-way comparison of triples, component by component. *)
Definition triple_compare (t u : triple) : comparison :=
  match (subject t ?= subject u)%string with
  | Eq => match (predicate t ?= predicate u)%string with
          | Eq => (object t ?= object u)%string
          | r => r
          end
  | r => r
  end.

(** ** The pattern catalog and extract_entities *)

Definition dquote : string := String (ascii_of_nat 34) EmptyString.

(** [initialize_patterns]: each regular expression is kept as its source
    text. *)
Definition initialize_patterns : std_map string :=
  let m := [] in
  let m := map_assign "person" "\b[A-Z][a-z]+ [A-Z][a-z]+\b" m in
  let m := map_assign "organization"
             "\b[A-Z][A-Z]+\b|\b[A-Z][a-z]+ [A-Z][a-z]+\b" m in
  let m := map_assign "location"
             "\b[A-Z][a-z]+(?: [A-Z][a-z]+)*, [A-Z]{2}\b|\b[A-Z][a-z]+(?: [A-Z][a-z]*)* (?:St|Ave|Rd|Blvd|Dr|Ln|Ct|Pl)\b" m in
  let m := map_assign "date"
             "\b(?:Jan|Feb|Mar|Apr|May|Jun|Jul|Aug|Sep|Oct|Nov|Dec) \d{1,2},? \d{4}\b|\b\d{1,2}/\d{1,2}/\d{4}\b" m in
  let m := map_assign "email"
             "\b[A-Za-z0-9._%+-]+@[A-Za-z0-9.-]+\.[A-Z|a-z]{2,}\b" m in
  let m := map_assign "url"
             ("https?://[^\s<>" ++ dquote ++ "]+|www\.[^\s<>" ++ dquote ++ "]+")%string m in
  m.

Definition entity_patterns_ : std_map string := initialize_patterns.

(** The categories of the catalog. *)
Definition catalog_categories : list string :=
  ["person"; "organization"; "location"; "date"; "email"; "url"].

(** [std::find(matches.begin(), matches.end(), m) != matches.end()]. *)
Definition std_find (matches : list string) (m : string) : bool :=
  existsb (fun x => (x =? m)%string) matches.

(** The loop over the match iterator, started with [matches]: a match is
    appended unless it is already in the list. *)
Definition collect_into (matches : list string) (found : list string)
  : list string :=
  for_each found (fun m matches =>
    if std_find matches m then matches else push_back matches m) matches.

Definition collect_matches (found : list string) : list string :=
  collect_into [] found.

Section Extraction.

(** The matching engine is [std::regex]: [regex_iterate pattern text] is
    the sequence of [iter->str()] that a [std::sregex_iterator] over
    [text] yields for the expression [pattern], from left to right. *)
Variable regex_iterate : string -> string -> list string.

Definition extract_entities (text : string) : std_map (list string) :=
  for_each entity_patterns_ (fun '(entity_type, pattern) entities =>
    let matches := collect_matches (regex_iterate pattern text) in
    map_assign entity_type matches entities) [].

End Extraction.

(** The entity [e] is listed under the category [c] of the mapping. *)
Definition mentions (c e : string) (entities : std_map (list string)) : Prop :=
  exists l, In (c, l) entities /\ In e l.

(** ** KeyAssassin::Cleanse ([engine/src/native/key_assassin.cpp]) *)

Definition backslash : ascii := ascii_of_nat 92.
Definition newline : ascii := ascii_of_nat 10.
Definition tab : ascii := ascii_of_nat 9.
Definition carriage_return : ascii := ascii_of_nat 13.
Definition double_quote : ascii := ascii_of_nat 34.

(** [result += c]. *)
Definition push_char (result : string) (c : ascii) : string :=
  (result ++ String c "")%string.

(** The loop over the characters of the input; [result] and [escape] are
    the two variables it updates.  The flag is returned with the result:
    it is still set when the input ends in the middle of an escape. *)
Fixpoint cleanse_loop (input : string) (result : string) (escape : bool)
  : string * bool :=
  match input with
  | EmptyString => (result, escape)
  | String c input' =>
      if escape then
        let result' :=
          if Ascii.eqb c "n" then push_char result newline
          else if Ascii.eqb c "r" then result
          else if Ascii.eqb c "t" then push_char result tab
          else if Ascii.eqb c double_quote then push_char result double_quote
          else if Ascii.eqb c backslash then push_char result backslash
          else push_char (push_char result backslash) c in
        cleanse_loop input' result' false
      else if Ascii.eqb c backslash then cleanse_loop input' result true
      else cleanse_loop input' (push_char result c) false
  end.

Definition Cleanse (input : string) : string :=
  fst (cleanse_loop input "" false).

(** The input stops right after an unescaped backslash. *)
Definition dangling_escape (input : string) : bool :=
  snd (cleanse_loop input "" false).

(** What the loop appends, given the state of the flag. *)
Fixpoint unescaped (input : string) (escape : bool) : string :=
  match input with
  | EmptyString => EmptyString
  | String c input' =>
      if escape then
        (if Ascii.eqb c "n" then String newline (unescaped input' false)
         else if Ascii.eqb c "r" then unescaped input' false
         else if Ascii.eqb c "t" then String tab (unescaped input' false)
         else if Ascii.eqb c double_quote
              then String double_quote (unescaped input' false)
         else if Ascii.eqb c backslash
              then String backslash (unescaped input' false)
         else String backslash (String c (unescaped input' false)))
      else if Ascii.eqb c backslash then unescaped input' true
      else String c (unescaped input' false)
  end.

Fixpoint escape_after (input : string) (escape : bool) : bool :=
  match input with
  | EmptyString => escape
  | String c input' =>
      if escape then escape_after input' false
      else escape_after input' (Ascii.eqb c backslash)
  end.

(** The escaping that [Cleanse] undoes: newline, tab, double quote and
    backslash are written as a backslash followed by [n], [t], the quote
    or a backslash; every other character stands for itself. *)
Fixpoint escape_text (s : string) : string :=
  match s with
  | EmptyString => EmptyString
  | String c s' =>
      if Ascii.eqb c newline then String backslash (String "n" (escape_text s'))
      else if Ascii.eqb c tab then String backslash (String "t" (escape_text s'))
      else if Ascii.eqb c double_quote
           then String backslash (String double_quote (escape_text s'))
      else if Ascii.eqb c backslash
           then String backslash (String backslash (escape_text s'))
      else String c (escape_text s')
  end.

(** ** Fingerprint ([engine/src/native/fingerprint.cpp]) *)

(** A [uint64_t] is a [Z] in the range of [is_uint64]; arithmetic that can
    leave the range is reduced by [uint64]. *)
Definition is_uint64 (z : Z) : Prop := 0 <= z < 2 ^ 64.
Definition uint64 (z : Z) : Z := z mod 2 ^ 64.

(** The number of 1 bits among the [n] lowest bits of [x]. *)
Fixpoint popcount (n : nat) (x : Z) : nat :=
  match n with
  | O => O
  | S n' => ((if Z.odd x then 1 else 0) + popcount n' (Z.div2 x))%nat
  end.

(** [__builtin_popcountll], the compiler's population count of a 64-bit
    word. *)
Definition builtin_popcountll (x : Z) : Z := Z.of_nat (popcount 64 x).

(** [Distance], as compiled by GCC or Clang. *)
Definition Distance (a b : Z) : Z :=
  let x := Z.lxor a b in
  builtin_popcountll x.

(** The portable branch of [Distance]:
    [while (x) { x &= (x - 1); count++; }]. *)
Fixpoint kernighan_loop (fuel : nat) (x count : Z) : option Z :=
  match fuel with
  | O => None
  | S fuel' =>
      if x =? 0 then Some count
      else kernighan_loop fuel' (Z.land x (x - 1)) (count + 1)
  end.

Definition Distance_fallback (a b : Z) : option Z :=
  let x := Z.lxor a b in
  kernighan_loop 65 x 0.

(** [int] arithmetic on the weights, reduced into the range of [int]. *)
Definition int_wrap (z : Z) : Z := (z + 2 ^ 31) mod 2 ^ 32 - 2 ^ 31.

(** [a[i] = v] on an array, for [i] within it. *)
Definition array_set (a : list Z) (i : nat) (v : Z) : list Z :=
  firstn i a ++ v :: skipn (S i) a.

(** [input[i]], for [i] within the text. *)
Definition char_at (input : string) (i : nat) : ascii :=
  match get i input with Some c => c | None => zero end.

(** The delimiters of the tokenizer of [Generate]. *)
Definition is_delimiter_char (c : ascii) : bool :=
  Ascii.eqb c " " || Ascii.eqb c newline || Ascii.eqb c tab
  || Ascii.eqb c carriage_return.

(** [h & (1ULL << bit)], as a condition. *)
Definition bit_set (h : Z) (bit : nat) : bool :=
  negb (Z.land h (Z.shiftl 1 (Z.of_nat bit)) =? 0).

(** The loop over the 64 bits of a token's hash. *)
Definition update_weights (h : Z) (weights : list Z) : list Z :=
  for_each (seq 0 64) (fun bit weights =>
    if bit_set h bit
    then array_set weights bit (int_wrap (nth bit weights 0 + 1))
    else array_set weights bit (int_wrap (nth bit weights 0 - 1))) weights.

(** The loop that collapses the weights into the fingerprint. *)
Definition collapse_weights (weights : list Z) : Z :=
  for_each (seq 0 64) (fun bit fingerprint =>
    if 0 <? nth bit weights 0
    then Z.lor fingerprint (Z.shiftl 1 (Z.of_nat bit))
    else fingerprint) 0.

Section TokenHash.

(** Whether plain [char] is a signed type is up to the platform; it
    decides how a character above 127 is converted to [uint64_t]. *)
Variable char_is_signed : bool.

(** [static_cast<uint64_t>(c)]. *)
Definition char_to_uint64 (c : ascii) : Z :=
  let n := Z.of_nat (nat_of_ascii c) in
  if char_is_signed && (128 <=? n) then uint64 (n - 256) else n.

(** The loop of [HashToken] over the characters of the token. *)
Fixpoint hash_loop (token : string) (hash : Z) : Z :=
  match token with
  | EmptyString => hash
  | String c token' =>
      let hash1 := Z.lxor hash (char_to_uint64 c) in
      let hash2 := uint64 (hash1 * 1099511628211) in
      hash_loop token' hash2
  end.

Definition HashToken (token : string) : Z :=
  hash_loop token 14695981039346656037.

(** One round of the tokenizer loop of [Generate], at index [i]; the
    state is [start] and the weights. *)
Definition tokenizer_step (input : string) (len : nat) (i : nat)
    (st : nat * list Z) : nat * list Z :=
  let '(start, weights) := st in
  let is_delimiter :=
    (i =? len)%nat || is_delimiter_char (char_at input i) in
  if is_delimiter then
    let weights' :=
      if (start <? i)%nat then
        let token := substring start (i - start) input in
        let h := HashToken token in
        update_weights h weights
      else weights in
    (S i, weights')
  else (start, weights).

Definition Generate (input : string) : Z :=
  let weights := repeat 0 64 in
  let start := 0%nat in
  let len := String.length input in
  let '(_, weights') :=
    for_each (seq 0 (S len)) (tokenizer_step input len) (start, weights) in
  collapse_weights weights'.

(** The weights after the tokens [tokens] have been hashed in. *)
Definition weigh_tokens (tokens : list string) (weights : list Z) : list Z :=
  fold_left (fun w token => update_weights (HashToken token) w) tokens weights.

(** The tally of bit [k]: tokens whose hash has the bit set, minus those
    whose hash has it clear. *)
Definition tally (k : nat) (tokens : list string) : Z :=
  fold_right (fun token n =>
    (if Z.testbit (HashToken token) (Z.of_nat k) then 1 else -1) + n) 0 tokens.

End TokenHash.

(** The closed form of the tokenizer of [Generate]: [cur] is the run of
    non-delimiter characters read so far. *)
Fixpoint scan_tokens (s : string) (cur : string) : list string :=
  match s with
  | EmptyString => if is_empty cur then [] else [cur]
  | String c s' =>
      if is_delimiter_char c then
        (if is_empty cur then scan_tokens s' EmptyString
         else cur :: scan_tokens s' EmptyString)
      else scan_tokens s' (cur ++ String c EmptyString)%string
  end.

(** The tokens that [Generate] hashes. *)
Definition sim_tokens (s : string) : list string := scan_tokens s EmptyString.

(** ** QLearningCore ([ece/agents/tier3/qlearning/qlearning_core.cpp]) *)

Inductive exception : Type :=
| out_of_range (what : string)
| invalid_argument (what : string).

(** What a call that may throw gives back. *)
Inductive outcome (A : Type) : Type :=
| Return (a : A)
| Throw (e : exception).

Arguments Return {A} a.
Arguments Throw {A} e.

(** [v[i] = x] on a vector, for [i] within it. *)
Fixpoint vector_set {A : Type} (v : list A) (i : nat) (x : A) : list A :=
  match v, i with
  | [], _ => []
  | _ :: v', O => x :: v'
  | y :: v', S i' => y :: vector_set v' i' x
  end.

(** [double] with its arithmetic, and the random engine with the
    distribution drawn from it, are left open: what is proved holds
    whatever they compute. *)
Class Arithmetic : Type := {
  double : Type;
  double_zero : double;
  double_add : double -> double -> double;
  double_sub : double -> double -> double;
  double_mul : double -> double -> double;
  double_lt : double -> double -> bool;
  double_of_int : Z -> double;
  int_of_double : double -> Z;
  mt19937 : Type;
  (* [dis_(gen_)]: a number drawn, and the engine afterwards *)
  draw : mt19937 -> double * mt19937
}.

Section QLearning.

Context {arithmetic : Arithmetic}.

Record QLearningCore : Type := mkQLearningCore {
  state_size_ : Z;
  action_size_ : Z;
  learning_rate_ : double;
  discount_factor_ : double;
  epsilon_ : double;
  q_table_ : list (list double);
  gen_ : mt19937
}.

Definition with_q_table (q : QLearningCore) (table : list (list double))
  : QLearningCore :=
  mkQLearningCore (state_size_ q) (action_size_ q) (learning_rate_ q)
    (discount_factor_ q) (epsilon_ q) table (gen_ q).

Definition with_gen (q : QLearningCore) (gen : mt19937) : QLearningCore :=
  mkQLearningCore (state_size_ q) (action_size_ q) (learning_rate_ q)
    (discount_factor_ q) (epsilon_ q) (q_table_ q) gen.

(** The constructor, for sizes that are not negative; [seed] is what
    [std::random_device] delivers. *)
Definition QLearningCore_new (state_size action_size : Z)
    (learning_rate discount_factor epsilon : double) (seed : mt19937)
  : QLearningCore :=
  mkQLearningCore state_size action_size learning_rate discount_factor epsilon
    (repeat (repeat double_zero (Z.to_nat action_size)) (Z.to_nat state_size))
    seed.

(** [std::max_element], as the distance from [begin()]: the first
    element that no later element exceeds in the comparisons made; 0 on an
    empty range. *)
Fixpoint max_element_from (largest : nat) (largest_value : double)
    (i : nat) (rest : list double) : nat :=
  match rest with
  | [] => largest
  | x :: rest' =>
      if double_lt largest_value x then max_element_from i x (S i) rest'
      else max_element_from largest largest_value (S i) rest'
  end.

Definition max_element (range : list double) : nat :=
  match range with
  | [] => O
  | x :: rest => max_element_from 0 x 1 rest
  end.

(** [q_table_[state][action]]. *)
Definition q_value (table : list (list double)) (state action : nat)
  : double :=
  nth action (nth state table []) double_zero.

Definition get_action (q : QLearningCore) (state : Z)
  : QLearningCore * outcome Z :=
  if (state <? 0) || (state >=? state_size_ q) then
    (q, Throw (out_of_range "State index out of range"))
  else
    let '(r, gen1) := draw (gen_ q) in
    if double_lt r (epsilon_ q) then
      let '(r2, gen2) := draw gen1 in
      (with_gen q gen2,
       Return (int_of_double (double_mul r2 (double_of_int (action_size_ q)))))
    else
      let state_actions := nth (Z.to_nat state) (q_table_ q) [] in
      (with_gen q gen1, Return (Z.of_nat (max_element state_actions))).

Definition update_q_value (q : QLearningCore) (state action : Z)
    (reward : double) (next_state : Z) : QLearningCore * outcome unit :=
  if (state <? 0) || (state >=? state_size_ q) then
    (q, Throw (out_of_range "State index out of range"))
  else if (action <? 0) || (action >=? action_size_ q) then
    (q, Throw (out_of_range "Action index out of range"))
  else if (next_state <? 0) || (next_state >=? state_size_ q) then
    (q, Throw (out_of_range "Next state index out of range"))
  else
    let current_q := q_value (q_table_ q) (Z.to_nat state) (Z.to_nat action) in
    let next_state_actions := nth (Z.to_nat next_state) (q_table_ q) [] in
    let max_next_q :=
      nth (max_element next_state_actions) next_state_actions double_zero in
    let new_q :=
      double_add current_q
        (double_mul (learning_rate_ q)
           (double_sub
              (double_add reward (double_mul (discount_factor_ q) max_next_q))
              current_q)) in
    let row := nth (Z.to_nat state) (q_table_ q) [] in
    (with_q_table q
       (vector_set (q_table_ q) (Z.to_nat state)
          (vector_set row (Z.to_nat action) new_q)),
     Return tt).

(** The loop of [batch_update_q_values] over the indices that are left;
    an exception ends it. *)
Fixpoint batch_loop (indices : list nat) (states actions : list Z)
    (rewards : list double) (next_states : list Z) (q : QLearningCore)
  : QLearningCore * outcome unit :=
  match indices with
  | [] => (q, Return tt)
  | i :: indices' =>
      match update_q_value q (nth i states 0) (nth i actions 0)
              (nth i rewards double_zero) (nth i next_states 0) with
      | (q', Return _) =>
          batch_loop indices' states actions rewards next_states q'
      | (q', Throw e) => (q', Throw e)
      end
  end.

Definition batch_update_q_values (q : QLearningCore) (states actions : list Z)
    (rewards : list double) (next_states : list Z)
  : QLearningCore * outcome unit :=
  let batch_size := List.length states in
  if negb (List.length actions =? batch_size)%nat
     || negb (List.length rewards =? batch_size)%nat
     || negb (List.length next_states =? batch_size)%nat
  then (q, Throw (invalid_argument "All input vectors must have the same size"))
  else batch_loop (seq 0 batch_size) states actions rewards next_states q.

(** The loop of [find_optimal_path], with the number of rounds that
    [step < max_steps] still allows.  [%] truncates, as in C++; the sum
    [current_state + action] is taken to stay within [int]. *)
Fixpoint path_loop (rounds : nat) (end_state : Z) (q : QLearningCore)
    (current_state : Z) (path : list Z) : QLearningCore * outcome (list Z) :=
  match rounds with
  | O => (q, Return path)
  | S rounds' =>
      if current_state =? end_state then (q, Return path)
      else
        match get_action q current_state with
        | (q', Throw e) => (q', Throw e)
        | (q', Return action) =>
            let next_state := Z.rem (current_state + action) (state_size_ q') in
            path_loop rounds' end_state q' next_state (push_back path next_state)
        end
  end.

Definition find_optimal_path (q : QLearningCore)
    (start_state end_state max_steps : Z)
  : QLearningCore * outcome (list Z) :=
  if (start_state <? 0) || (start_state >=? state_size_ q) then
    (q, Throw (out_of_range "Start state index out of range"))
  else if (end_state <? 0) || (end_state >=? state_size_ q) then
    (q, Throw (out_of_range "End state index out of range"))
  else
    path_loop (Z.to_nat max_steps) end_state q start_state [start_state].

(** The table has [state_size_] rows of [action_size_] entries. *)
Definition well_formed (q : QLearningCore) : Prop :=
  0 <= state_size_ q /\ 0 <= action_size_ q /\
  List.length (q_table_ q) = Z.to_nat (state_size_ q) /\
  Forall (fun row => List.length row = Z.to_nat (action_size_ q)) (q_table_ q).

End QLearning.

(** An arithmetic to run [QLearningCore] on: integers stand for [double],
    a counter for the random engine. *)
Definition integer_arithmetic : Arithmetic :=
  {| double := Z;
     double_zero := 0;
     double_add := Z.add;
     double_sub := Z.sub;
     double_mul := Z.mul;
     double_lt := Z.ltb;
     double_of_int := fun z => z;
     int_of_double := fun z => z;
     mt19937 := nat;
     draw := fun gen => (Z.of_nat gen, S gen) |}.

(** A fresh core with three states and two actions. *)
Definition demo_core : @QLearningCore integer_arithmetic :=
  @QLearningCore_new integer_arithmetic 3 2 1 1 0 0%nat.

(** * Proofs *)

(** ** Strings *)

Lemma append_nil_r (s : string) : (s ++ "")%string = s.
Proof. induction s; simpl; congruence. Qed.

Lemma append_assoc (s t u : string) :
  ((s ++ t) ++ u)%string = (s ++ t ++ u)%string.
Proof. induction s; simpl; congruence. Qed.

Lemma append_length (s t : string) :
  String.length (s ++ t) = (String.length s + String.length t)%nat.
Proof. induction s; simpl; congruence. Qed.

Lemma append_snoc (s : string) (c : ascii) (t : string) :
  ((s ++ String c "") ++ t)%string = (s ++ String c t)%string.
Proof. now rewrite append_assoc. Qed.

Lemma is_empty_true (s : string) : is_empty s = true <-> s = "".
Proof. destruct s; simpl; split; congruence. Qed.

Lemma is_empty_false (s : string) : is_empty s = false <-> s <> "".
Proof. destruct s; simpl; split; congruence. Qed.

Lemma is_empty_append (s t : string) :
  is_empty (s ++ t) = is_empty s && is_empty t.
Proof. destruct s; reflexivity. Qed.

Lemma all_chars_append (p : ascii -> bool) (s t : string) :
  all_chars p (s ++ t) = all_chars p s && all_chars p t.
Proof.
  induction s as [|c s IH]; simpl; [reflexivity|].
  now rewrite IH, andb_assoc.
Qed.

(** ** The extraction loops reach their closed forms *)

Lemma skipws_length (s : string) :
  (String.length (skipws s) <= String.length s)%nat.
Proof.
  induction s as [|c s IH]; simpl; [lia|].
  destruct (isspace c); simpl; lia.
Qed.

Lemma skipws_head (s : string) (c : ascii) (s' : string) :
  skipws s = String c s' -> isspace c = false.
Proof.
  induction s as [|d s IH]; simpl; [discriminate|].
  destruct (isspace d) eqn:E; [exact IH|].
  intros H; injection H as -> _; exact E.
Qed.

Lemma scan_words_skipws (s : string) :
  scan_words s "" = scan_words (skipws s) "".
Proof.
  induction s as [|c s IH]; simpl; [reflexivity|].
  destruct (isspace c) eqn:E; simpl; [exact IH|].
  now rewrite E.
Qed.

Lemma read_word_spec (s w rest : string) (ateof : bool) :
  read_word s = (w, rest, ateof) ->
  s = (w ++ rest)%string /\ all_chars nonspace w = true /\
  (if ateof then rest = ""
   else exists c r, rest = String c r /\ isspace c = true).
Proof.
  revert w rest ateof.
  induction s as [|c s IH]; simpl; intros w rest ateof H.
  - injection H as <- <- <-. auto.
  - destruct (isspace c) eqn:E.
    + injection H as <- <- <-. simpl. repeat split; eauto.
    + destruct (read_word s) as [[w' rest'] e'].
      injection H as <- <- <-.
      destruct (IH _ _ _ eq_refl) as (-> & Hw & Hr).
      simpl. unfold nonspace at 1. rewrite E. simpl. auto.
Qed.

Lemma scan_words_token (w s cur : string) :
  all_chars nonspace w = true ->
  scan_words (w ++ s) cur = scan_words s (cur ++ w).
Proof.
  revert cur. induction w as [|c w IH]; simpl; intros cur H.
  - now rewrite append_nil_r.
  - apply andb_prop in H as [Hc Hw]. unfold nonspace in Hc.
    apply negb_true_iff in Hc. rewrite Hc, IH by assumption.
    now rewrite append_snoc.
Qed.

(** At a token boundary the pending token is emitted. *)
Lemma scan_words_boundary (rest cur : string) :
  cur <> "" ->
  rest = "" \/ (exists c r, rest = String c r /\ isspace c = true) ->
  scan_words rest cur = cur :: scan_words rest "".
Proof.
  intros Hc [->|(c & r & -> & Hs)]; simpl.
  - now apply is_empty_false in Hc as ->.
  - rewrite Hs. now apply is_empty_false in Hc as ->.
Qed.

Lemma extract_word_good (s token : string) :
  extract_word (mkStream s false false) token
  = match skipws s with
    | EmptyString => (mkStream EmptyString true true, token)
    | String c s' =>
        let '(w, rest, ateof) := read_word (String c s') in
        (mkStream rest ateof (is_empty w), w)
    end.
Proof. reflexivity. Qed.

Lemma extract_word_eof (s token : string) :
  extract_word (mkStream s true false) token = (mkStream s true true, token).
Proof. reflexivity. Qed.

Lemma read_word_nonempty (c : ascii) (s w rest : string) (e : bool) :
  isspace c = false -> read_word (String c s) = (w, rest, e) -> w <> "".
Proof.
  simpl. intros ->. destruct (read_word s) as [[? ?] ?].
  intros H; injection H as <- _ _. discriminate.
Qed.

Lemma tokens_loop (fuel : nat) :
  forall (s : string) (e : bool) (token : string) (tokens : list string),
    (String.length s < fuel)%nat -> (e = true -> s = "") ->
    while_extract extract_word fuel (mkStream s e false) token tokens
    = Some (tokens ++ words s).
Proof.
  induction fuel as [|fuel IH]; intros s e token tokens Hlen He; [lia|].
  cbn [while_extract].
  destruct e.
  - rewrite extract_word_eof. cbn. rewrite (He eq_refl). cbn.
    now rewrite app_nil_r.
  - rewrite extract_word_good. unfold words. rewrite scan_words_skipws.
    pose proof (skipws_length s) as Hsk.
    destruct (skipws s) as [|c s0] eqn:Esk.
    + cbn. now rewrite app_nil_r.
    + pose proof (skipws_head _ _ _ Esk) as Hc.
      destruct (read_word (String c s0)) as [[w rest] e'] eqn:Erw.
      destruct (read_word_spec _ _ _ _ Erw) as (Hs & Hw & Hr).
      pose proof (read_word_nonempty _ _ _ _ _ Hc Erw) as Hne.
      apply is_empty_false in Hne as Hie.
      unfold stream_ok. cbn [failbit]. rewrite Hie. cbn [negb].
      assert (Hl : (String.length rest < fuel)%nat).
      { apply (f_equal String.length) in Hs. rewrite append_length in Hs.
        cbn in Hs, Hsk. destruct w; [congruence|]. cbn in Hs. lia. }
      rewrite IH; [|exact Hl|destruct e'; [auto|discriminate]].
      unfold push_back, words. rewrite <- app_assoc. cbn [app].
      do 2 f_equal. rewrite Hs.
      rewrite scan_words_token by assumption. cbn [append].
      symmetry. apply scan_words_boundary; [assumption|].
      destruct e'; auto.
Qed.

(** Tokenization always returns, with the maximal runs of non-whitespace
    characters of the text. *)
Lemma tokenize_words (text : string) : tokenize text = Some (words text).
Proof.
  unfold tokenize, open_stream.
  rewrite tokens_loop; [reflexivity|lia|discriminate].
Qed.

(** ** Tokens *)

Lemma scan_words_tokens (s : string) :
  forall cur, all_chars nonspace cur = true -> Forall is_token (scan_words s cur).
Proof.
  induction s as [|c s IH]; simpl; intros cur Hcur.
  - destruct (is_empty cur) eqn:E; constructor; [|constructor].
    split; [now apply is_empty_false|assumption].
  - destruct (isspace c) eqn:Ec.
    + destruct (is_empty cur) eqn:E; [now apply IH|].
      constructor; [|now apply IH].
      split; [now apply is_empty_false|assumption].
    + apply IH. rewrite all_chars_append, Hcur. simpl.
      unfold nonspace. now rewrite Ec.
Qed.

Lemma words_tokens (s : string) : Forall is_token (words s).
Proof. now apply scan_words_tokens. Qed.

Lemma scan_words_length (s : string) :
  forall cur,
    (List.length (scan_words s cur)
     <= String.length s + (if is_empty cur then 0 else 1))%nat.
Proof.
  induction s as [|c s IH]; simpl; intros cur.
  - destruct (is_empty cur); simpl; lia.
  - destruct (isspace c).
    + specialize (IH ""). simpl in IH. destruct (is_empty cur); simpl; lia.
    + specialize (IH (cur ++ String c "")%string).
      rewrite is_empty_append, andb_false_r in IH. lia.
Qed.

Lemma words_length (s : string) :
  (List.length (words s) <= String.length s)%nat.
Proof. pose proof (scan_words_length s ""). simpl in *. unfold words. lia. Qed.

Lemma scan_words_nil (s : string) :
  forall cur,
    scan_words s cur = [] <-> is_empty cur = true /\ all_chars isspace s = true.
Proof.
  induction s as [|c s IH]; simpl; intros cur.
  - destruct (is_empty cur); intuition discriminate.
  - destruct (isspace c); simpl.
    + destruct (is_empty cur).
      * rewrite IH. simpl. tauto.
      * intuition discriminate.
    + rewrite IH, is_empty_append, andb_false_r. intuition discriminate.
Qed.

Lemma words_nil (s : string) : words s = [] <-> all_chars isspace s = true.
Proof. unfold words. rewrite scan_words_nil. simpl. tauto. Qed.

Lemma words_join (ws : list string) :
  Forall is_token ws -> words (join_spaces ws) = ws.
Proof.
  unfold words. induction 1 as [|w ws [Hne Hw] Hws IH]; [reflexivity|].
  destruct ws as [|w' ws].
  - simpl. rewrite <- (append_nil_r w) at 1.
    rewrite scan_words_token by assumption. simpl.
    now apply is_empty_false in Hne as ->.
  - change (join_spaces (w :: w' :: ws))
      with (w ++ String " " (join_spaces (w' :: ws)))%string.
    rewrite scan_words_token by assumption. cbn [append scan_words].
    change (isspace " ") with true. cbn iota.
    apply is_empty_false in Hne as ->. now rewrite IH.
Qed.

(** ** The truncation loop *)

Lemma static_cast_int_id (z : Z) :
  - 2 ^ 31 <= z <= INT_MAX -> static_cast_int z = z.
Proof.
  unfold static_cast_int, INT_MAX. intros H.
  rewrite Z.mod_small; lia.
Qed.

Lemma firstn_succ_nth {A : Type} (d : A) (l : list A) :
  forall i, (i < List.length l)%nat ->
            firstn (S i) l = firstn i l ++ [nth i l d].
Proof.
  induction l as [|x l IH]; simpl; intros i Hi; [lia|].
  destruct i as [|i]; [reflexivity|].
  cbn [firstn nth app]. f_equal. apply IH. lia.
Qed.

Lemma join_spaces_snoc (l : list string) (x : string) :
  join_spaces (l ++ [x])
  = match l with [] => x | _ => (join_spaces l ++ " " ++ x)%string end.
Proof.
  induction l as [|a l IH]; [reflexivity|].
  destruct l as [|b l]; [reflexivity|].
  change (join_spaces ((a :: b :: l) ++ [x]))
    with (a ++ " " ++ join_spaces ((b :: l) ++ [x]))%string.
  rewrite IH.
  change (join_spaces (a :: b :: l)) with (a ++ " " ++ join_spaces (b :: l))%string.
  now rewrite !append_assoc.
Qed.

Lemma static_cast_int_le (z : Z) : 0 <= z -> static_cast_int z <= z.
Proof.
  unfold static_cast_int. intros H.
  pose proof (Z.mod_le (z + 2 ^ 31) (2 ^ 32)). lia.
Qed.

(** The loop is only entered with [max_length] below the converted token
    count; it then appends the first [max_length] tokens and stops. *)
Lemma summary_loop_spec (tokens : list string) (max_length : Z) :
  max_length < static_cast_int (Z.of_nat (List.length tokens)) ->
  forall (fuel i : nat),
    (i <= Z.to_nat max_length)%nat ->
    (Z.to_nat max_length - i < fuel)%nat ->
    summary_loop fuel tokens max_length (Z.of_nat i) (join_spaces (firstn i tokens))
    = Some (join_spaces (firstn (Z.to_nat max_length) tokens)).
Proof.
  intros Hm.
  pose proof (static_cast_int_le (Z.of_nat (List.length tokens))
                (Nat2Z.is_nonneg _)) as Hc.
  induction fuel as [|fuel IH]; intros i Him Hf; [lia|].
  cbn [summary_loop].
  destruct (Z.ltb_spec (Z.of_nat i) max_length) as [E1|E1]; cbn [andb].
  - destruct (Z.ltb_spec (Z.of_nat i)
                (static_cast_int (Z.of_nat (List.length tokens)))) as [E2|E2];
      [|lia].
    replace (Z.of_nat i + 1) with (Z.of_nat (S i)) by lia.
    rewrite Nat2Z.id.
    replace ((if (0 <? Z.of_nat i)%Z
              then (join_spaces (firstn i tokens) ++ " ")%string
              else join_spaces (firstn i tokens)) ++ nth i tokens "")%string
      with (join_spaces (firstn (S i) tokens)).
    + apply IH; lia.
    + rewrite (firstn_succ_nth "") by lia. rewrite join_spaces_snoc.
      destruct i as [|i]; [reflexivity|].
      destruct (firstn (S i) tokens) eqn:Ef.
      * apply (f_equal (@List.length _)) in Ef.
        rewrite length_firstn in Ef. cbn [List.length] in Ef. lia.
      * replace (0 <? Z.of_nat (S i)) with true by (symmetry; apply Z.ltb_lt; lia).
        now rewrite append_assoc.
  - do 3 f_equal. lia.
Qed.

(** [summarize_text] always returns: the text itself when the converted
    token count does not exceed the bound, its first [max_length] tokens
    joined by spaces otherwise. *)
Lemma summarize_text_run (text : string) (max_length : Z) :
  summarize_text text max_length
  = Some (if static_cast_int (Z.of_nat (List.length (words text))) <=? max_length
          then text
          else join_spaces (firstn (Z.to_nat max_length) (words text))).
Proof.
  unfold summarize_text. rewrite tokenize_words.
  destruct (Z.leb_spec (static_cast_int (Z.of_nat (List.length (words text))))
              max_length) as [H|H]; [reflexivity|].
  pose proof (static_cast_int_le (Z.of_nat (List.length (words text)))
                (Nat2Z.is_nonneg _)).
  apply (summary_loop_spec (words text) max_length H _ 0%nat); lia.
Qed.

(** On a text shorter than 2 GiB the conversion of the token count to
    [int] is exact. *)
Lemma summarize_text_eq (text : string) (max_length : Z) :
  Z.of_nat (String.length text) <= INT_MAX ->
  summarize_text text max_length
  = Some (if Z.of_nat (List.length (words text)) <=? max_length then text
          else join_spaces (firstn (Z.to_nat max_length) (words text))).
Proof.
  intros Hlen. rewrite summarize_text_run.
  pose proof (words_length text) as Hw.
  now rewrite static_cast_int_id by (unfold INT_MAX in *; lia).
Qed.

Lemma Forall_firstn {A : Type} (P : A -> Prop) (l : list A) :
  Forall P l -> forall n, Forall P (firstn n l).
Proof.
  induction 1 as [|x l Hx Hl IH]; intros [|n]; cbn [firstn]; auto.
Qed.

(** ** summarize_text: the claims *)

(** While the token count fits [int], its conversion is exact. *)
Lemma summarize_text_words (text : string) (max_length : Z) :
  Z.of_nat (List.length (words text)) <= INT_MAX ->
  summarize_text text max_length
  = Some (if Z.of_nat (List.length (words text)) <=? max_length then text
          else join_spaces (firstn (Z.to_nat max_length) (words text))).
Proof.
  intros Hn. rewrite summarize_text_run.
  now rewrite static_cast_int_id by (unfold INT_MAX in *; lia).
Qed.

Lemma words_many_tokens (n : nat) : words (many_tokens n) = repeat "a" n.
Proof.
  unfold words. induction n as [|n IH]; [reflexivity|].
  cbn [many_tokens repeat]. rewrite <- IH. reflexivity.
Qed.

(** On 2^31 tokens the count converts to the least [int], which no bound
    is below: the text comes back whole. *)
Lemma many_tokens_overflow (n : nat) (max_length : Z) :
  Z.of_nat n = 2 ^ 31 -> - 2 ^ 31 <= max_length ->
  summarize_text (many_tokens n) max_length = Some (many_tokens n).
Proof.
  intros Hn Hm. rewrite summarize_text_run, words_many_tokens, repeat_length.
  rewrite Hn.
  replace (static_cast_int (2 ^ 31)) with (- 2 ^ 31) by reflexivity.
  now rewrite (proj2 (Z.leb_le _ _) Hm).
Qed.

Lemma many_tokens_long (n : nat) :
  Z.of_nat n = 2 ^ 31 ->
  exists rest, many_tokens n = String "a" (String " " (String "a" rest)).
Proof.
  destruct n as [|[|n]]; intros H.
  - exfalso. change (Z.of_nat 0) with 0 in H. lia.
  - exfalso. change (Z.of_nat 1) with 1 in H. lia.
  - cbn [many_tokens]. eauto.
Qed.

Lemma overflow_text_count : Z.of_nat (Z.to_nat (2 ^ 31)) = 2 ^ 31.
Proof. apply Z2Nat.id. lia. Qed.

(** C1 (as amended). For every text of fewer than 2^31 tokens and every
    non-positive bound, [summarize_text] returns the empty string, except
    that with the bound 0 a text that holds whitespace only (or nothing)
    is returned as it is. *)
Theorem summarize_text_nonpositive (T : string) (maxTokens : Z) :
  Z.of_nat (List.length (words T)) <= INT_MAX ->
  maxTokens <= 0 ->
  summarize_text T maxTokens
  = Some (if (maxTokens =? 0) && all_chars isspace T then T else "").
Proof.
  intros Hlen Hm. rewrite summarize_text_words by assumption. f_equal.
  destruct (all_chars isspace T) eqn:Hs.
  - apply words_nil in Hs. rewrite Hs. cbn [List.length].
    rewrite andb_true_r.
    destruct (Z.eqb_spec maxTokens 0) as [->|Hne]; [reflexivity|].
    destruct (Z.leb_spec (Z.of_nat 0) maxTokens); [lia|].
    now rewrite firstn_nil.
  - rewrite andb_false_r.
    destruct (words T) as [|w ws] eqn:E.
    + apply words_nil in E. congruence.
    + cbn [List.length].
      destruct (Z.leb_spec (Z.of_nat (S (List.length ws))) maxTokens); [lia|].
      replace (Z.to_nat maxTokens) with 0%nat by lia. reflexivity.
Qed.

Lemma summarize_text_nonpositive_witness :
  summarize_text " a " 0
  = Some (if (0 =? 0) && all_chars isspace " a " then " a " else "").
Proof.
  apply (summarize_text_nonpositive " a " 0).
  - vm_compute. discriminate.
  - lia.
Defined.

(** C1 as stated fails: with the bound 0, a text of one space comes back
    unchanged, which is not the empty string. *)
Lemma summarize_text_nonpositive_counterexample :
  0 <= 0 /\ summarize_text " " 0 = Some " " /\ " " <> "".
Proof.
  split; [lia|]. split; [vm_compute; reflexivity|discriminate].
Qed.

(** C2 (as amended). For a text of fewer than 2^31 tokens, a token being
    a maximal run of non-whitespace characters, and a bound of at least
    1: the code's tokens are these runs; a text of at most [maxTokens]
    tokens is returned unchanged; a longer one gives its first
    [maxTokens] tokens joined by single spaces; either way the result has
    at most [maxTokens] tokens. *)
Theorem summarize_text_bound (T : string) (maxTokens : Z) :
  Z.of_nat (List.length (words T)) <= INT_MAX ->
  1 <= maxTokens ->
  tokenize T = Some (words T) /\
  (Z.of_nat (List.length (words T)) <= maxTokens ->
   summarize_text T maxTokens = Some T) /\
  (maxTokens < Z.of_nat (List.length (words T)) ->
   summarize_text T maxTokens
   = Some (join_spaces (firstn (Z.to_nat maxTokens) (words T)))) /\
  (exists out,
      summarize_text T maxTokens = Some out /\
      Z.of_nat (List.length (words out)) <= maxTokens).
Proof.
  intros Hlen Hm. split; [apply tokenize_words|].
  rewrite summarize_text_words by assumption.
  destruct (Z.leb_spec (Z.of_nat (List.length (words T))) maxTokens) as [Hle|Hgt].
  - split; [reflexivity|]. split; [lia|].
    exists T. split; [reflexivity|assumption].
  - split; [lia|]. split; [reflexivity|].
    eexists. split; [reflexivity|].
    rewrite words_join by (apply Forall_firstn, words_tokens).
    rewrite length_firstn. lia.
Qed.

Lemma summarize_text_bound_witness :
  tokenize "one two three four five" = Some (words "one two three four five") /\
  (Z.of_nat (List.length (words "one two three four five")) <= 3 ->
   summarize_text "one two three four five" 3 = Some "one two three four five")
  /\
  (3 < Z.of_nat (List.length (words "one two three four five")) ->
   summarize_text "one two three four five" 3
   = Some (join_spaces (firstn (Z.to_nat 3) (words "one two three four five"))))
  /\
  (exists out,
      summarize_text "one two three four five" 3 = Some out /\
      Z.of_nat (List.length (words out)) <= 3).
Proof.
  apply (summarize_text_bound "one two three four five" 3).
  - vm_compute. discriminate.
  - lia.
Defined.

(** C2 as stated fails on a text of 2^31 tokens: with the bound 1 it has
    more tokens than the bound, yet it is returned whole, which is not
    its first token. *)
Lemma summarize_text_bound_counterexample :
  1 <= 1 /\
  tokenize overflow_text = Some (repeat "a" (Z.to_nat (2 ^ 31))) /\
  1 < Z.of_nat (List.length (repeat "a" (Z.to_nat (2 ^ 31)))) /\
  summarize_text overflow_text 1 = Some overflow_text /\
  overflow_text
  <> join_spaces (firstn (Z.to_nat 1) (repeat "a" (Z.to_nat (2 ^ 31)))).
Proof.
  unfold overflow_text.
  pose proof overflow_text_count as Hn.
  generalize dependent (Z.to_nat (2 ^ 31)). intros n Hn.
  split; [lia|].
  split; [now rewrite tokenize_words, words_many_tokens|].
  split; [rewrite repeat_length, Hn; reflexivity|].
  split; [apply many_tokens_overflow; [assumption|lia]|].
  destruct (many_tokens_long n Hn) as (rest & ->).
  destruct n as [|n]; [discriminate|].
  change (Z.to_nat 1) with 1%nat. cbn [repeat firstn join_spaces].
  discriminate.
Qed.

(** C10 (as amended). On a text of fewer than 2^31 tokens: a negative
    bound gives the empty string; the bound 0 gives the text itself when
    it holds whitespace only (or nothing), and the empty string when it
    holds any other character. *)
Theorem summarize_text_zero_negative (T : string) (maxTokens : Z) :
  Z.of_nat (List.length (words T)) <= INT_MAX ->
  (maxTokens < 0 -> summarize_text T maxTokens = Some "") /\
  (all_chars isspace T = true -> summarize_text T 0 = Some T) /\
  (all_chars isspace T = false -> summarize_text T 0 = Some "").
Proof.
  intros Hlen. rewrite !summarize_text_words by assumption.
  repeat split.
  - intros Hm.
    destruct (Z.leb_spec (Z.of_nat (List.length (words T))) maxTokens); [lia|].
    replace (Z.to_nat maxTokens) with 0%nat by lia. reflexivity.
  - intros Hs. apply words_nil in Hs. now rewrite Hs.
  - intros Hs. destruct (words T) as [|w ws] eqn:E.
    + apply words_nil in E. congruence.
    + reflexivity.
Qed.

Lemma summarize_text_zero_negative_witness :
  (-5 < 0 -> summarize_text "  " (-5) = Some "") /\
  (all_chars isspace "  " = true -> summarize_text "  " 0 = Some "  ") /\
  (all_chars isspace "  " = false -> summarize_text "  " 0 = Some "").
Proof.
  apply (summarize_text_zero_negative "  " (-5)).
  vm_compute. discriminate.
Defined.

(** C10 as stated fails on a text of 2^31 tokens: with the negative
    bound -1 it is returned whole, and it is not empty. *)
Lemma summarize_text_zero_negative_counterexample :
  -1 < 0 /\
  summarize_text overflow_text (-1) = Some overflow_text /\
  overflow_text <> "".
Proof.
  unfold overflow_text.
  pose proof overflow_text_count as Hn.
  generalize dependent (Z.to_nat (2 ^ 31)). intros n Hn.
  split; [lia|].
  split; [apply many_tokens_overflow; [assumption|lia]|].
  destruct (many_tokens_long n Hn) as (rest & ->). discriminate.
Qed.

(** ** Sentence segmentation *)

Lemma has_char_append (c : ascii) (s t : string) :
  has_char c (s ++ t) = has_char c s || has_char c t.
Proof.
  induction s as [|d s IH]; simpl; [reflexivity|].
  now rewrite IH, orb_assoc.
Qed.

Lemma read_until_spec (d : ascii) (s line rest : string) (hit : bool) :
  read_until d s = (line, rest, hit) ->
  has_char d line = false /\
  (if hit then s = (line ++ String d rest)%string else s = line /\ rest = "").
Proof.
  revert line rest hit.
  induction s as [|c s IH]; simpl; intros line rest hit H.
  - injection H as <- <- <-. auto.
  - destruct (Ascii.eqb_spec c d) as [->|Hne].
    + injection H as <- <- <-. auto.
    + destruct (read_until d s) as [[line' rest'] hit'].
      injection H as <- <- <-.
      destruct (IH _ _ _ eq_refl) as (Hl & Hs).
      simpl. apply Ascii.eqb_neq in Hne. rewrite Hne, Hl. split; [reflexivity|].
      destruct hit'; [now rewrite Hs at 1|].
      destruct Hs as [-> ->]. auto.
Qed.

Lemma scan_sentences_read_until (s line rest : string) (hit : bool) :
  read_until "." s = (line, rest, hit) ->
  forall cur,
    scan_sentences s cur
    = if hit then (cur ++ line)%string :: scan_sentences rest ""
      else if is_empty (cur ++ line) then [] else [(cur ++ line)%string].
Proof.
  revert line rest hit.
  induction s as [|c s IH]; simpl; intros line rest hit H cur.
  - injection H as <- <- <-. rewrite append_nil_r. reflexivity.
  - destruct (Ascii.eqb c ".").
    + injection H as <- <- <-. now rewrite append_nil_r.
    + destruct (read_until "." s) as [[line' rest'] hit'].
      injection H as <- <- <-.
      rewrite (IH _ _ _ eq_refl). now rewrite append_snoc.
Qed.

Lemma getline_good (s str : string) (delim : ascii) :
  getline (mkStream s false false) str delim
  = let '(line, rest, hit) := read_until delim s in
    (mkStream rest (negb hit) (negb hit && is_empty line), line).
Proof. reflexivity. Qed.

Lemma getline_eof (s str : string) (delim : ascii) :
  getline (mkStream s true false) str delim = (mkStream s true true, str).
Proof. reflexivity. Qed.

Lemma sentences_loop (fuel : nat) :
  forall (s : string) (e : bool) (sentence : string) (sentences : list string),
    (String.length s < fuel)%nat -> (e = true -> s = "") ->
    while_extract (fun iss x => getline iss x ".") fuel
      (mkStream s e false) sentence sentences
    = Some (sentences ++ scan_sentences s "").
Proof.
  induction fuel as [|fuel IH]; intros s e sentence sentences Hlen He; [lia|].
  cbn [while_extract].
  destruct e.
  - rewrite getline_eof. cbn. rewrite (He eq_refl). cbn.
    now rewrite app_nil_r.
  - rewrite getline_good.
    destruct (read_until "." s) as [[line rest] hit] eqn:Eru.
    rewrite (scan_sentences_read_until _ _ _ _ Eru). cbn [append].
    destruct (read_until_spec _ _ _ _ _ Eru) as (_ & Hs).
    unfold stream_ok. cbn [failbit].
    destruct hit; cbn [negb andb].
    + rewrite IH.
      * unfold push_back. now rewrite <- app_assoc.
      * apply (f_equal String.length) in Hs. rewrite append_length in Hs.
        cbn in Hs. lia.
      * discriminate.
    + destruct Hs as [-> ->].
      destruct (is_empty line) eqn:El; cbn [negb].
      * now rewrite app_nil_r.
      * rewrite IH; [cbn; now rewrite app_nil_r| |reflexivity].
        destruct line; [discriminate|]. cbn in *. lia.
Qed.

(** Segmentation always returns, with the closed form. *)
Lemma split_sentences_scan (text : string) :
  split_sentences text = Some (scan_sentences text "").
Proof.
  unfold split_sentences, open_stream.
  rewrite sentences_loop; [reflexivity|lia|discriminate].
Qed.

Lemma substring_of_refl (s : string) : substring_of s s.
Proof. exists "", "". now rewrite append_nil_r. Qed.

Lemma substring_of_trans (a b c : string) :
  substring_of a b -> substring_of b c -> substring_of a c.
Proof.
  intros (p1 & q1 & ->) (p2 & q2 & ->).
  exists (p2 ++ p1)%string, (q1 ++ q2)%string.
  now rewrite !append_assoc.
Qed.

Lemma substring_of_has_char (c : ascii) (a b : string) :
  substring_of a b -> has_char c b = false -> has_char c a = false.
Proof.
  intros (p & q & ->). rewrite !has_char_append.
  intros H. apply orb_false_elim in H as [_ H].
  now apply orb_false_elim in H as [H _].
Qed.

(** Every sentence is a run of characters of the text between periods. *)
Lemma scan_sentences_In (s : string) :
  forall cur x,
    has_char "." cur = false -> In x (scan_sentences s cur) ->
    has_char "." x = false /\ substring_of x (cur ++ s).
Proof.
  induction s as [|c s IH]; simpl; intros cur x Hcur Hin.
  - destruct (is_empty cur); [contradiction|].
    destruct Hin as [<-|[]]. split; [assumption|].
    rewrite append_nil_r. apply substring_of_refl.
  - destruct (Ascii.eqb_spec c ".") as [->|Hne].
    + destruct Hin as [<-|Hin].
      * split; [assumption|]. exists "", (String "." s). reflexivity.
      * destruct (IH "" x eq_refl Hin) as (Hx & Hsub). split; [assumption|].
        apply (substring_of_trans _ _ _ Hsub).
        exists (cur ++ ".")%string, "".
        now rewrite append_nil_r, append_snoc.
    + assert (Hc : has_char "." (cur ++ String c "") = false).
      { rewrite has_char_append, Hcur. simpl.
        apply Ascii.eqb_neq in Hne. now rewrite Hne. }
      destruct (IH _ x Hc Hin) as (Hx & Hsub). split; [assumption|].
      now rewrite append_snoc in Hsub.
Qed.

Lemma scan_sentences_no_period (s : string) :
  forall cur,
    has_char "." s = false ->
    scan_sentences s cur
    = if is_empty (cur ++ s) then [] else [(cur ++ s)%string].
Proof.
  induction s as [|c s IH]; simpl; intros cur H.
  - now rewrite append_nil_r.
  - apply orb_false_elim in H as [Hc Hs]. rewrite Hc.
    rewrite IH by assumption. now rewrite append_snoc.
Qed.

(** What precedes a period is segmented on its own account; what follows
    it is segmented afresh. *)
Lemma scan_sentences_after_period (pre rest : string) :
  forall cur, exists before,
    scan_sentences (pre ++ String "." rest) cur
    = before ++ scan_sentences rest "".
Proof.
  induction pre as [|c pre IH]; simpl; intros cur.
  - exists [cur]. reflexivity.
  - destruct (Ascii.eqb c ".").
    + destruct (IH "") as (before & ->). exists (cur :: before). reflexivity.
    + apply IH.
Qed.

Lemma scan_sentences_nil (s : string) :
  forall cur, scan_sentences s cur = [] -> s = "".
Proof.
  induction s as [|c s IH]; simpl; intros cur H; [reflexivity|].
  destruct (Ascii.eqb c "."); [discriminate|].
  pose proof (IH _ H) as Hs. subst s. simpl in H.
  rewrite is_empty_append in H. simpl in H. rewrite andb_false_r in H.
  discriminate.
Qed.

Lemma trailing_period_cons (c : ascii) (s : string) :
  s <> "" -> trailing_period (String c s) = trailing_period s.
Proof. destruct s; [congruence|reflexivity]. Qed.

(** The sentences, joined by periods again, give the text back up to a
    final period. *)
Lemma scan_sentences_join (s : string) :
  forall cur,
    (cur ++ s)%string
    = (join_periods (scan_sentences s cur) ++ trailing_period s)%string.
Proof.
  induction s as [|c s IH]; intros cur.
  - simpl. destruct cur; reflexivity.
  - cbn [scan_sentences].
    destruct (Ascii.eqb_spec c ".") as [->|Hne].
    + destruct (scan_sentences s "") as [|x r] eqn:E.
      * apply scan_sentences_nil in E. subst s. reflexivity.
      * assert (Hs : s <> "") by (intros ->; discriminate).
        rewrite trailing_period_cons by assumption.
        change (join_periods (cur :: x :: r))
          with (cur ++ "." ++ join_periods (x :: r))%string.
        rewrite !append_assoc. cbn [append]. do 2 f_equal.
        rewrite <- E. apply (IH "").
    + rewrite <- append_snoc, IH. f_equal.
      destruct s as [|c' s]; [|reflexivity].
      unfold trailing_period. simpl.
      apply Ascii.eqb_neq in Hne. now rewrite Hne.
Qed.

(** C8 (as amended). Segmentation splits the text at every period: the
    sentences hold no period and, joined by periods, give the text back up
    to a final period.  A non-empty fragment after the last period is the
    last sentence, and a non-empty text without a period is the only
    sentence; an empty trailing fragment is no sentence, so the empty text
    has none. *)
Theorem split_sentences_spec (T : string) :
  exists sentences,
    split_sentences T = Some sentences /\
    Forall (fun s => has_char "." s = false) sentences /\
    T = (join_periods sentences ++ trailing_period T)%string /\
    (has_char "." T = false -> T <> "" -> sentences = [T]) /\
    (T = "" -> sentences = []) /\
    (forall pre fragment,
        T = (pre ++ String "." fragment)%string ->
        has_char "." fragment = false -> fragment <> "" ->
        exists before, sentences = before ++ [fragment]).
Proof.
  exists (scan_sentences T ""). split; [apply split_sentences_scan|].
  split; [|split; [|split; [|split]]].
  - apply Forall_forall. intros x Hx.
    now apply (scan_sentences_In T "" x eq_refl).
  - apply (scan_sentences_join T "").
  - intros Hp Hne. rewrite scan_sentences_no_period by assumption.
    cbn [append]. now apply is_empty_false in Hne as ->.
  - intros ->. reflexivity.
  - intros pre fragment -> Hp Hne.
    destruct (scan_sentences_after_period pre fragment "") as (before & ->).
    exists before. f_equal.
    rewrite scan_sentences_no_period by assumption.
    cbn [append]. now apply is_empty_false in Hne as ->.
Qed.

(** C8 as stated fails on the empty text: it has no period, yet it is not
    returned as a sentence; there is no sentence at all. *)
Lemma split_sentences_counterexample :
  has_char "." "" = false /\
  split_sentences "" = Some [] /\ split_sentences "" <> Some [""].
Proof.
  split; [reflexivity|]. split; [vm_compute; reflexivity|].
  vm_compute. discriminate.
Qed.

(** ** Substring search *)

Lemma prefix_append (p s : string) :
  prefix p s = true <-> exists t, s = (p ++ t)%string.
Proof.
  revert s. induction p as [|a p IH]; intros s.
  - destruct s; simpl; split; eauto.
  - destruct s as [|b s]; simpl.
    + split; [discriminate|]. intros (t & H). discriminate.
    + destruct (ascii_dec a b) as [->|Hne].
      * rewrite IH. split; intros (t & H); exists t; congruence.
      * split; [discriminate|]. intros (t & H). congruence.
Qed.

Lemma find_from_substring (s pat : string) :
  forall pos,
    (exists n, find_from s pat pos = Some n) <-> substring_of pat s.
Proof.
  induction s as [|c s IH]; intros pos; cbn [find_from].
  - destruct (prefix pat "") eqn:E.
    + split; [|eauto]. intros _. apply prefix_append in E as (t & H).
      exists "", t. exact H.
    + split; [intros (n & H); discriminate|].
      intros (pre & post & H). destruct pre; [|discriminate].
      assert (prefix pat "" = true) by (apply prefix_append; eauto).
      congruence.
  - destruct (prefix pat (String c s)) eqn:E.
    + split; [|eauto]. intros _. apply prefix_append in E as (t & H).
      exists "", t. exact H.
    + rewrite IH. split.
      * intros (pre & post & ->). exists (String c pre), post. reflexivity.
      * intros (pre & post & H). destruct pre as [|d pre].
        -- assert (prefix pat (String c s) = true)
             by (apply prefix_append; eauto).
           congruence.
        -- injection H as _ ->. exists pre, post. reflexivity.
Qed.

(** [sentence.find(e) != npos] holds exactly when [e] occurs in the
    sentence. *)
Lemma contains_substring (s pat : string) :
  contains s pat = true <-> substring_of pat s.
Proof.
  unfold contains, string_find. rewrite <- (find_from_substring s pat 0).
  destruct (find_from s pat 0); split; eauto; try discriminate.
  intros (n & H). discriminate.
Qed.

(** ** The loops of extract_relationships *)

Lemma for_each_emit {A B : Type} (body : A -> list B -> list B)
    (emit : A -> list B) :
  (forall a acc, body a acc = acc ++ emit a) ->
  forall l acc, for_each l body acc = acc ++ flat_map emit l.
Proof.
  intros Hbody. unfold for_each.
  induction l as [|a l IH]; intros acc; simpl.
  - now rewrite app_nil_r.
  - rewrite IH, Hbody. now rewrite <- app_assoc.
Qed.

Lemma relationship_loops_emit (sentences : list string)
    (entities : std_map (list string)) :
  relationship_loops sentences entities
  = flat_map (fun sentence => emit_subjects sentence entities) sentences.
Proof.
  unfold relationship_loops.
  rewrite (for_each_emit _ (fun sentence => emit_subjects sentence entities));
    [reflexivity|].
  intros sentence acc. unfold emit_subjects.
  apply for_each_emit. intros [entity_type1 entity_list1] acc1.
  apply for_each_emit. intros entity1 acc2.
  destruct (contains sentence entity1); [|now rewrite app_nil_r].
  unfold emit_objects.
  apply for_each_emit. intros [entity_type2 entity_list2] acc3.
  apply for_each_emit. intros entity2 acc4.
  destruct (_ && _); [reflexivity|now rewrite app_nil_r].
Qed.

Lemma emit_objects_In (sentence entity1 : string)
    (entities : std_map (list string)) (t : triple) :
  In t (emit_objects sentence entity1 entities) <->
  exists entity_type2 entity_list2 entity2,
    In (entity_type2, entity_list2) entities /\ In entity2 entity_list2 /\
    entity2 <> entity1 /\ contains sentence entity2 = true /\
    t = (entity1, ("RELATED_TO_" ++ entity_type2)%string, entity2).
Proof.
  unfold emit_objects. rewrite in_flat_map. split.
  - intros ([ty l] & HE & H). apply in_flat_map in H as (e2 & Hl & H).
    destruct (String.eqb_spec e2 entity1) as [Heq|Hne]; [contradiction|].
    destruct (contains sentence e2) eqn:Ec; [|contradiction].
    destruct H as [<-|[]]. exists ty, l, e2. auto.
  - intros (ty & l & e2 & HE & Hl & Hne & Hc & ->).
    exists (ty, l). split; [assumption|]. apply in_flat_map.
    exists e2. split; [assumption|].
    apply String.eqb_neq in Hne. rewrite Hne, Hc. now left.
Qed.

(** The triples pushed by the loops, before sorting. *)
Lemma relationship_loops_In (sentences : list string)
    (entities : std_map (list string)) (t : triple) :
  In t (relationship_loops sentences entities) <->
  exists sentence entity_type1 entity_list1 entity_type2 entity_list2,
    In sentence sentences /\
    In (entity_type1, entity_list1) entities /\
    In (subject t) entity_list1 /\
    contains sentence (subject t) = true /\
    In (entity_type2, entity_list2) entities /\
    In (object t) entity_list2 /\
    object t <> subject t /\
    contains sentence (object t) = true /\
    predicate t = ("RELATED_TO_" ++ entity_type2)%string.
Proof.
  rewrite relationship_loops_emit, in_flat_map. unfold emit_subjects. split.
  - intros (sentence & Hs & H).
    apply in_flat_map in H as ([ty1 l1] & HE1 & H).
    apply in_flat_map in H as (e1 & Hl1 & H).
    destruct (contains sentence e1) eqn:Ec1; [|contradiction].
    apply emit_objects_In in H as (ty2 & l2 & e2 & HE2 & Hl2 & Hne & Hc2 & ->).
    exists sentence, ty1, l1, ty2, l2. cbn. auto 10.
  - intros (sentence & ty1 & l1 & ty2 & l2 & Hs & HE1 & Hl1 & Hc1 & HE2 & Hl2
            & Hne & Hc2 & Hp).
    exists sentence. split; [assumption|].
    apply in_flat_map. exists (ty1, l1). split; [assumption|].
    apply in_flat_map. exists (subject t). split; [assumption|].
    rewrite Hc1. apply emit_objects_In.
    exists ty2, l2, (object t). repeat split; try assumption.
    destruct t as [[a b] c]. cbn in *. now subst b.
Qed.

(** ** The order on triples *)

Lemma string_compare_refl (a : string) : (a ?= a)%string = Eq.
Proof. now apply String_as_OT.cmp_eq. Qed.

Lemma string_compare_eq (a b : string) : (a ?= b)%string = Eq <-> a = b.
Proof. apply String_as_OT.cmp_eq. Qed.

Lemma string_lt_trans (a b c : string) :
  string_lt a b -> string_lt b c -> string_lt a c.
Proof.
  unfold string_lt. intros H1 H2.
  apply String_as_OT.cmp_lt in H1, H2. apply String_as_OT.cmp_lt.
  eapply String_as_OT.lt_trans; eassumption.
Qed.

Lemma string_lt_irrefl (a : string) : ~ string_lt a a.
Proof. unfold string_lt. rewrite string_compare_refl. discriminate. Qed.

Lemma triple_compare_refl (t : triple) : triple_compare t t = Eq.
Proof. unfold triple_compare. now rewrite !string_compare_refl. Qed.

Lemma triple_compare_eq (t u : triple) : triple_compare t u = Eq <-> t = u.
Proof.
  split; [|intros ->; apply triple_compare_refl].
  destruct t as [[a1 b1] c1], u as [[a2 b2] c2].
  unfold triple_compare. cbn.
  destruct (a1 ?= a2)%string eqn:Ea; try discriminate.
  destruct (b1 ?= b2)%string eqn:Eb; try discriminate.
  intros Ec. apply string_compare_eq in Ea, Eb, Ec. congruence.
Qed.

Lemma triple_compare_antisym (t u : triple) :
  triple_compare u t = CompOpp (triple_compare t u).
Proof.
  unfold triple_compare.
  rewrite (String.compare_antisym (subject u) (subject t)).
  rewrite (String.compare_antisym (predicate u) (predicate t)).
  rewrite (String.compare_antisym (object u) (object t)).
  destruct (subject t ?= subject u)%string; cbn; try reflexivity.
  destruct (predicate t ?= predicate u)%string; cbn; reflexivity.
Qed.

Lemma string_compare_neq (a b : string) :
  (a ?= b)%string <> Eq -> a <> b.
Proof. intros H ->. apply H, string_compare_refl. Qed.

Lemma triple_compare_lt (t u : triple) :
  triple_compare t u = Lt <-> triple_lex_lt t u.
Proof.
  unfold triple_compare, triple_lex_lt, string_lt.
  destruct (subject t ?= subject u)%string eqn:Ea.
  - apply string_compare_eq in Ea.
    destruct (predicate t ?= predicate u)%string eqn:Eb.
    + apply string_compare_eq in Eb. intuition congruence.
    + intuition congruence.
    + assert (predicate t <> predicate u)
        by (apply string_compare_neq; congruence).
      intuition congruence.
  - tauto.
  - assert (subject t <> subject u) by (apply string_compare_neq; congruence).
    intuition congruence.
Qed.

(** [operator<] of the tuple is the lexicographic order. *)
Lemma triple_ltb_compare (t u : triple) :
  triple_ltb t u = match triple_compare t u with Lt => true | _ => false end.
Proof.
  destruct t as [[a1 b1] c1], u as [[a2 b2] c2].
  unfold triple_ltb, triple_compare, String.ltb. cbn.
  rewrite (String.compare_antisym a1 a2), (String.compare_antisym b1 b2).
  destruct (a2 ?= a1)%string; cbn; try reflexivity.
  destruct (b2 ?= b1)%string; cbn; reflexivity.
Qed.

Lemma triple_ltb_lex (t u : triple) :
  triple_ltb t u = true <-> triple_lex_lt t u.
Proof.
  rewrite triple_ltb_compare, <- triple_compare_lt.
  destruct (triple_compare t u); split; congruence.
Qed.

Lemma triple_eqb_eq (t u : triple) : triple_eqb t u = true <-> t = u.
Proof.
  destruct t as [[a1 b1] c1], u as [[a2 b2] c2]. unfold triple_eqb.
  rewrite !andb_true_iff, !String.eqb_eq. intuition congruence.
Qed.

Lemma triple_lex_lt_irrefl (t : triple) : ~ triple_lex_lt t t.
Proof.
  rewrite <- triple_compare_lt, triple_compare_refl. discriminate.
Qed.

Lemma triple_lex_lt_trans (t u v : triple) :
  triple_lex_lt t u -> triple_lex_lt u v -> triple_lex_lt t v.
Proof.
  unfold triple_lex_lt.
  intros [H1|(E1 & [H1|(F1 & H1)])] [H2|(E2 & [H2|(F2 & H2)])];
    try (left; congruence || (eapply string_lt_trans; eassumption) ||
         (rewrite E1; assumption) || (rewrite <- E2; assumption));
    right; (split; [congruence|]);
    try (left; congruence || (eapply string_lt_trans; eassumption) ||
         (rewrite F1; assumption) || (rewrite <- F2; assumption));
    right; (split; [congruence|]); eapply string_lt_trans; eassumption.
Qed.

Lemma triple_ltb_false (t u : triple) :
  triple_ltb t u = false <-> triple_lex_le u t.
Proof.
  rewrite triple_ltb_compare. unfold triple_lex_le.
  rewrite <- triple_compare_lt, (triple_compare_antisym t u).
  destruct (triple_compare t u) eqn:E; cbn.
  - apply triple_compare_eq in E. intuition congruence.
  - split; [discriminate|]. intros [->|H]; [|discriminate].
    rewrite triple_compare_refl in E. discriminate.
  - tauto.
Qed.

Lemma triple_lex_le_trans (t u v : triple) :
  triple_lex_le t u -> triple_lex_le u v -> triple_lex_le t v.
Proof.
  intros [E1|H1] [E2|H2]; subst; unfold triple_lex_le; auto.
  right. eapply triple_lex_lt_trans; eassumption.
Qed.

Lemma triple_lex_le_antisym (t u : triple) :
  triple_lex_le t u -> triple_lex_le u t -> t = u.
Proof.
  intros [E1|H1] [E2|H2]; try congruence.
  destruct (triple_lex_lt_irrefl t). eapply triple_lex_lt_trans; eassumption.
Qed.

(** ** std::sort and std::unique *)

Lemma insert_sorted_perm (x : triple) (l : list triple) :
  Permutation (x :: l) (insert_sorted x l).
Proof.
  induction l as [|y l IH]; simpl; [reflexivity|].
  destruct (triple_ltb y x); [|reflexivity].
  rewrite perm_swap. now apply perm_skip.
Qed.

Lemma std_sort_perm (l : list triple) : Permutation l (std_sort l).
Proof.
  induction l as [|x l IH]; simpl; [reflexivity|].
  rewrite <- insert_sorted_perm. now apply perm_skip.
Qed.

Lemma insert_sorted_sorted (x : triple) (l : list triple) :
  StronglySorted triple_lex_le l ->
  StronglySorted triple_lex_le (insert_sorted x l).
Proof.
  induction 1 as [|y l Hl IH Hy]; simpl.
  - repeat constructor.
  - destruct (triple_ltb y x) eqn:E.
    + constructor; [assumption|].
      rewrite <- insert_sorted_perm. constructor; [|assumption].
      right. now apply triple_ltb_lex.
    + apply triple_ltb_false in E.
      constructor; [now constructor|].
      constructor; [assumption|].
      eapply Forall_impl; [|exact Hy].
      intros z Hz. eapply triple_lex_le_trans; eassumption.
Qed.

Lemma std_sort_sorted (l : list triple) :
  StronglySorted triple_lex_le (std_sort l).
Proof.
  induction l as [|x l IH]; simpl; [constructor|].
  now apply insert_sorted_sorted.
Qed.

(** An ordered list has a single ordered rearrangement. *)
Lemma sorted_perm_eq (l1 : list triple) :
  forall l2,
    StronglySorted triple_lex_le l1 -> StronglySorted triple_lex_le l2 ->
    Permutation l1 l2 -> l1 = l2.
Proof.
  induction l1 as [|x l1 IH]; intros l2 H1 H2 HP.
  - apply Permutation_nil in HP. now subst.
  - destruct l2 as [|y l2].
    + symmetry in HP. apply Permutation_nil in HP. discriminate.
    + apply StronglySorted_inv in H1 as [S1 F1].
      apply StronglySorted_inv in H2 as [S2 F2].
      assert (x = y).
      { assert (Hx : In x (y :: l2))
          by (eapply Permutation_in; [exact HP|now left]).
        assert (Hy : In y (x :: l1))
          by (eapply Permutation_in; [symmetry; exact HP|now left]).
        destruct Hx as [Hx|Hx]; [congruence|].
        destruct Hy as [Hy|Hy]; [congruence|].
        rewrite Forall_forall in F1, F2.
        apply triple_lex_le_antisym; auto. }
      subst y. f_equal. apply IH; try assumption.
      eapply Permutation_cons_inv; exact HP.
Qed.

(** Whatever algorithm [std::sort] runs, it leaves an ordered
    rearrangement of its input, and that is [std_sort]. *)
Lemma std_sort_unique (l sorted : list triple) :
  Permutation l sorted -> StronglySorted triple_lex_le sorted ->
  sorted = std_sort l.
Proof.
  intros HP HS. apply sorted_perm_eq; [assumption|apply std_sort_sorted|].
  rewrite <- HP. apply std_sort_perm.
Qed.

Lemma std_sort_In (l : list triple) (t : triple) :
  In t (std_sort l) <-> In t l.
Proof.
  split; apply Permutation_in; [symmetry|]; apply std_sort_perm.
Qed.

Lemma unique_after_In (l : list triple) :
  forall kept t, In t (kept :: unique_after kept l) <-> In t (kept :: l).
Proof.
  induction l as [|y l IH]; intros kept t; cbn [unique_after]; [tauto|].
  destruct (triple_eqb kept y) eqn:E.
  - apply triple_eqb_eq in E. subst y. rewrite IH. simpl. tauto.
  - specialize (IH y t). simpl in *. tauto.
Qed.

Lemma std_unique_In (l : list triple) (t : triple) :
  In t (std_unique l) <-> In t l.
Proof. destruct l as [|x l]; [tauto|]. apply unique_after_In. Qed.

Lemma unique_after_sorted (l : list triple) :
  forall kept,
    Forall (triple_lex_le kept) l -> StronglySorted triple_lex_le l ->
    Forall (triple_lex_lt kept) (unique_after kept l) /\
    StronglySorted triple_lex_lt (unique_after kept l).
Proof.
  induction l as [|y l IH]; intros kept Hk Hs; cbn [unique_after].
  - split; constructor.
  - apply Forall_cons_iff in Hk as [Hky Hk].
    apply StronglySorted_inv in Hs as [Hs Hy].
    destruct (triple_eqb kept y) eqn:E.
    + apply IH; assumption.
    + assert (Hlt : triple_lex_lt kept y).
      { destruct Hky as [->|H]; [|assumption].
        assert (triple_eqb y y = true) by now apply triple_eqb_eq.
        congruence. }
      destruct (IH y Hy Hs) as [Hf Hss].
      split; constructor; try assumption.
      eapply Forall_impl; [|exact Hf].
      intros z Hz. eapply triple_lex_lt_trans; eassumption.
Qed.

Lemma std_unique_sorted (l : list triple) :
  StronglySorted triple_lex_le l ->
  StronglySorted triple_lex_lt (std_unique l).
Proof.
  destruct l as [|x l]; intros Hs; [constructor|].
  apply StronglySorted_inv in Hs as [Hs Hx].
  destruct (unique_after_sorted l x Hx Hs). now constructor.
Qed.

Lemma strictly_sorted_NoDup (l : list triple) :
  StronglySorted triple_lex_lt l -> NoDup l.
Proof.
  induction 1 as [|x l Hl IH Hx]; constructor; [|assumption].
  intros Hin. rewrite Forall_forall in Hx.
  exact (triple_lex_lt_irrefl x (Hx x Hin)).
Qed.

Lemma strictly_sorted_le (l : list triple) :
  StronglySorted triple_lex_lt l -> StronglySorted triple_lex_le l.
Proof.
  induction 1 as [|x l Hl IH Hx]; constructor; [assumption|].
  eapply Forall_impl; [|exact Hx]. intros z Hz. now right.
Qed.

(** ** extract_relationships: the claims *)

Lemma extract_relationships_eq (T : string) (E : std_map (list string)) :
  extract_relationships T E
  = Some (std_unique (std_sort (relationship_loops (scan_sentences T "") E))).
Proof. unfold extract_relationships. now rewrite split_sentences_scan. Qed.

Lemma relationships_In (T : string) (E : std_map (list string)) (t : triple) :
  In t (std_unique (std_sort (relationship_loops (scan_sentences T "") E)))
  <-> In t (relationship_loops (scan_sentences T "") E).
Proof. now rewrite std_unique_In, std_sort_In. Qed.

(** In a map, whose keys are pairwise distinct, the entry [(c, l)] is the
    one that [find] returns for [c]. *)
Lemma map_find_entry {V : Type} (m : std_map V) (c : string) (l : V) :
  NoDup (map_keys m) -> In (c, l) m -> map_find c m = Some l.
Proof.
  induction m as [|[k v] m IH]; simpl; intros Hnd Hin; [contradiction|].
  apply NoDup_cons_iff in Hnd as [Hk Hnd].
  destruct Hin as [Heq|Hin].
  - injection Heq as -> ->. now rewrite String.eqb_refl.
  - destruct (String.eqb_spec c k) as [->|Hne]; [|now apply IH].
    destruct Hk. apply (in_map fst) in Hin. exact Hin.
Qed.

(** C3. [extract_relationships] returns, and in every triple returned the
    subject is listed under some category of [E], the object is listed
    under a category [c] of [E] with the predicate ["RELATED_TO_" ++ c],
    and subject and object are different strings. *)
Theorem extract_relationships_well_formed (T : string)
    (E : std_map (list string)) :
  exists relationships,
    extract_relationships T E = Some relationships /\
    forall t, In t relationships ->
      (exists c l, In (c, l) E /\ In (subject t) l) /\
      (exists c l, In (c, l) E /\ In (object t) l /\
                   predicate t = ("RELATED_TO_" ++ c)%string) /\
      subject t <> object t.
Proof.
  eexists. split; [apply extract_relationships_eq|].
  intros t Ht. apply relationships_In, relationship_loops_In in Ht.
  destruct Ht as (s & ty1 & l1 & ty2 & l2 & _ & HE1 & Hl1 & _ & HE2 & Hl2
                  & Hne & _ & Hp).
  split; [eauto|]. split; [eauto 6|]. congruence.
Qed.

Lemma substring_of_empty (s : string) : substring_of "" s.
Proof. exists "", s. reflexivity. Qed.

Lemma prefix_without_char (c : ascii) (w : string) :
  forall a b post,
    (w ++ post)%string = (a ++ String c b)%string ->
    has_char c w = false -> exists r, a = (w ++ r)%string.
Proof.
  induction w as [|y w IH]; intros a b post H Hw; [exists a; reflexivity|].
  cbn [has_char] in Hw. apply orb_false_elim in Hw as [Hy Hw].
  destruct a as [|x a]; cbn [append] in H.
  - injection H as -> _. rewrite Ascii.eqb_refl in Hy. discriminate.
  - injection H as -> H. destruct (IH _ _ _ H Hw) as (r & ->).
    exists r. reflexivity.
Qed.

(** A run of characters without [c] lies on one side of an occurrence of
    [c]. *)
Lemma substring_of_split (c : ascii) (w : string) :
  has_char c w = false ->
  forall a b,
    substring_of w (a ++ String c b) ->
    substring_of w a \/ substring_of w b.
Proof.
  intros Hw a b (pre & post & H). revert pre H.
  induction a as [|x a IH]; intros pre H; cbn [append] in H.
  - destruct pre as [|d pre]; cbn [append] in H.
    + destruct w as [|y w]; [left; apply substring_of_empty|].
      cbn [append has_char] in *. injection H as <- _.
      rewrite Ascii.eqb_refl in Hw. discriminate.
    + injection H as _ ->. right. exists pre, post. reflexivity.
  - destruct pre as [|d pre]; cbn [append] in H.
    + left.
      destruct (prefix_without_char c w (String x a) b post) as (r & ->);
        [symmetry; exact H|assumption|].
      exists "", r. reflexivity.
    + injection H as _ H. destruct (IH pre H) as [(p & q & ->)|Hb].
      * left. exists (String x p), q. reflexivity.
      * now right.
Qed.

(** Every non-empty run of characters of the text that holds no period
    lies within one sentence. *)
Lemma scan_sentences_covers (w : string) :
  w <> "" -> has_char "." w = false ->
  forall s cur,
    substring_of w (cur ++ s) ->
    exists sentence, In sentence (scan_sentences s cur) /\ substring_of w sentence.
Proof.
  intros Hne Hw. induction s as [|c s IH]; intros cur Hsub;
    cbn [scan_sentences].
  - rewrite append_nil_r in Hsub.
    destruct cur as [|d cur].
    + destruct Hsub as (pre & post & H).
      destruct pre; [|discriminate]. destruct w; [congruence|discriminate].
    + cbn [is_empty]. eexists. split; [now left|assumption].
  - destruct (Ascii.eqb_spec c ".") as [->|Hc].
    + destruct (substring_of_split "." w Hw _ _ Hsub) as [Hcur|Hs].
      * exists cur. split; [now left|assumption].
      * destruct (IH "" Hs) as (x & Hx & Hwx). exists x. split; [now right|assumption].
    + apply IH. now rewrite append_snoc.
Qed.

(** C4. [extract_relationships] returns.  Every sentence the code cuts
    is a stretch of the text without a period; and for every stretch of
    the text without a period, so for every sentence, and every two
    entries [e1] (under [type1]) and [e2] (under [type2]) of [E] that both
    occur in it and differ as strings, the result holds
    [(e1, "RELATED_TO_" ++ type2, e2)], and with it the triple in the
    other direction.  Occurrence is substring containment, so whatever
    occurs in an entity that occurs in the sentence occurs in the
    sentence. *)
Theorem extract_relationships_complete (T : string)
    (E : std_map (list string)) :
  exists sentences relationships,
    split_sentences T = Some sentences /\
    Forall (fun sentence =>
              substring_of sentence T /\ has_char "." sentence = false)
           sentences /\
    extract_relationships T E = Some relationships /\
    (forall sentence type1 list1 e1 type2 list2 e2,
        substring_of sentence T -> has_char "." sentence = false ->
        In (type1, list1) E -> In e1 list1 -> substring_of e1 sentence ->
        In (type2, list2) E -> In e2 list2 -> substring_of e2 sentence ->
        e2 <> e1 ->
        In (e1, ("RELATED_TO_" ++ type2)%string, e2) relationships /\
        In (e2, ("RELATED_TO_" ++ type1)%string, e1) relationships) /\
    (forall sentence longer e,
        contains sentence longer = true -> substring_of e longer ->
        contains sentence e = true).
Proof.
  exists (scan_sentences T ""). eexists.
  split; [apply split_sentences_scan|]. split.
  { apply Forall_forall. intros x Hx.
    destruct (scan_sentences_In T "" x eq_refl Hx) as (Hp & Hsub). auto. }
  split; [apply extract_relationships_eq|]. split.
  - intros w ty1 l1 e1 ty2 l2 e2 HwT Hw HE1 Hl1 Hc1 HE2 Hl2 Hc2 Hne.
    assert (Hwne : w <> "").
    { intros ->. apply Hne.
      destruct Hc1 as (p1 & q1 & H1), Hc2 as (p2 & q2 & H2).
      destruct p1; [|discriminate]. destruct p2; [|discriminate].
      destruct e1; [|discriminate]. destruct e2; [|discriminate].
      reflexivity. }
    destruct (scan_sentences_covers w Hwne Hw T "" HwT) as (s & Hs & Hws).
    assert (S1 : contains s e1 = true)
      by (apply contains_substring; eapply substring_of_trans; eassumption).
    assert (S2 : contains s e2 = true)
      by (apply contains_substring; eapply substring_of_trans; eassumption).
    split; apply relationships_In, relationship_loops_In.
    + exists s, ty1, l1, ty2, l2. cbn. auto 10.
    + exists s, ty2, l2, ty1, l1. cbn. auto 10.
  - intros s longer e Hl He. apply contains_substring in Hl.
    apply contains_substring. eapply substring_of_trans; eassumption.
Qed.

(** C5. [extract_relationships] returns a sequence that is sorted in the
    lexicographic order of (subject, predicate, object), strictly
    increasing, and free of duplicates. *)
Theorem extract_relationships_sorted (T : string)
    (E : std_map (list string)) :
  exists relationships,
    extract_relationships T E = Some relationships /\
    StronglySorted triple_lex_le relationships /\
    StronglySorted triple_lex_lt relationships /\
    NoDup relationships.
Proof.
  eexists. split; [apply extract_relationships_eq|].
  assert (H : StronglySorted triple_lex_lt
                (std_unique (std_sort (relationship_loops (scan_sentences T "") E))))
    by apply std_unique_sorted, std_sort_sorted.
  split; [now apply strictly_sorted_le|].
  split; [assumption|now apply strictly_sorted_NoDup].
Qed.

(** C9. Whatever the mapping [E], subject and object of every triple
    returned are contiguous runs of characters of the text and hold no
    period; so a string with a period in it is never a subject or an
    object. *)
Theorem extract_relationships_period_free (T : string)
    (E : std_map (list string)) :
  exists relationships,
    extract_relationships T E = Some relationships /\
    (forall t, In t relationships ->
       substring_of (subject t) T /\ has_char "." (subject t) = false /\
       substring_of (object t) T /\ has_char "." (object t) = false) /\
    (forall e t, has_char "." e = true -> In t relationships ->
       subject t <> e /\ object t <> e).
Proof.
  eexists. split; [apply extract_relationships_eq|].
  assert (H : forall t,
             In t (std_unique (std_sort (relationship_loops (scan_sentences T "") E))) ->
             substring_of (subject t) T /\ has_char "." (subject t) = false /\
             substring_of (object t) T /\ has_char "." (object t) = false).
  { intros t Ht. apply relationships_In, relationship_loops_In in Ht.
    destruct Ht as (s & ty1 & l1 & ty2 & l2 & Hs & _ & _ & Hc1 & _ & _
                    & _ & Hc2 & _).
    apply contains_substring in Hc1, Hc2.
    destruct (scan_sentences_In T "" s eq_refl Hs) as (Hp & Hsub).
    cbn [append] in Hsub.
    repeat split;
      try (eapply substring_of_trans; eassumption);
      eapply substring_of_has_char; eassumption. }
  split; [exact H|].
  intros e t He Ht. destruct (H t Ht) as (_ & Hs & _ & Ho).
  split; congruence.
Qed.

(** ** extract_entities *)

Lemma std_find_In (l : list string) (m : string) :
  std_find l m = true <-> In m l.
Proof.
  unfold std_find. rewrite existsb_exists. split.
  - intros (x & Hx & E). apply String.eqb_eq in E. now subst.
  - intros H. exists m. split; [assumption|apply String.eqb_refl].
Qed.

Lemma collect_into_app (acc ms1 ms2 : list string) :
  collect_into acc (ms1 ++ ms2) = collect_into (collect_into acc ms1) ms2.
Proof. unfold collect_into, for_each. apply fold_left_app. Qed.

Lemma collect_into_extends (ms : list string) :
  forall acc, exists more, collect_into acc ms = acc ++ more.
Proof.
  induction ms as [|m ms IH]; intros acc.
  - exists []. cbn. now rewrite app_nil_r.
  - change (collect_into acc (m :: ms))
      with (collect_into (if std_find acc m then acc else push_back acc m) ms).
    destruct (std_find acc m); [apply IH|].
    destruct (IH (push_back acc m)) as (more & ->).
    exists (m :: more). unfold push_back. now rewrite <- app_assoc.
Qed.

Lemma collect_into_In (ms : list string) :
  forall acc x, In x (collect_into acc ms) <-> In x acc \/ In x ms.
Proof.
  induction ms as [|m ms IH]; intros acc x.
  - cbn. tauto.
  - change (collect_into acc (m :: ms))
      with (collect_into (if std_find acc m then acc else push_back acc m) ms).
    rewrite IH. destruct (std_find acc m) eqn:E.
    + apply std_find_In in E. simpl. intuition (subst; auto).
    + unfold push_back. rewrite in_app_iff. simpl. tauto.
Qed.

Lemma collect_into_NoDup (ms : list string) :
  forall acc, NoDup acc -> NoDup (collect_into acc ms).
Proof.
  induction ms as [|m ms IH]; intros acc Hacc; [exact Hacc|].
  change (collect_into acc (m :: ms))
    with (collect_into (if std_find acc m then acc else push_back acc m) ms).
  apply IH. destruct (std_find acc m) eqn:E; [assumption|].
  unfold push_back. apply NoDup_app; [assumption|repeat constructor; auto|].
  intros x Hx [<-|[]]. apply std_find_In in Hx. congruence.
Qed.

(** The collected list keeps every distinct match once, at the place of
    its first occurrence. *)
Lemma collect_matches_first_seen (ms : list string) :
  NoDup (collect_matches ms) /\
  (forall x, In x (collect_matches ms) <-> In x ms) /\
  (forall before x after,
      ms = before ++ x :: after -> ~ In x before ->
      exists l1 l2,
        collect_matches ms = l1 ++ x :: l2 /\
        forall y, In y l1 <-> In y before).
Proof.
  unfold collect_matches. split; [apply collect_into_NoDup; constructor|].
  split; [intros x; rewrite collect_into_In; simpl; tauto|].
  intros before x after -> Hx.
  change (x :: after) with ([x] ++ after).
  rewrite !collect_into_app.
  assert (Hin : forall y, In y (collect_into [] before) <-> In y before)
    by (intros y; rewrite collect_into_In; simpl; tauto).
  assert (E : collect_into (collect_into [] before) [x]
              = collect_into [] before ++ [x]).
  { cbn. destruct (std_find (collect_into [] before) x) eqn:F; [|reflexivity].
    apply std_find_In, Hin in F. contradiction. }
  rewrite E.
  destruct (collect_into_extends after (collect_into [] before ++ [x]))
    as (more & ->).
  exists (collect_into [] before), more. split; [|exact Hin].
  now rewrite <- app_assoc.
Qed.

Lemma map_find_map {V W : Type} (f : string -> V -> W) (m : std_map V)
    (k : string) :
  map_find k (map (fun '(k', v) => (k', f k' v)) m)
  = option_map (f k) (map_find k m).
Proof.
  induction m as [|[k' v] m IH]; simpl; [reflexivity|].
  destruct (String.eqb_spec k k') as [->|Hne]; [reflexivity|exact IH].
Qed.

Section ExtractionFacts.

Variable regex_iterate : string -> string -> list string.

(** One entry per pattern of the catalog, under the pattern's category. *)
Lemma extract_entities_eq (text : string) :
  extract_entities regex_iterate text
  = map (fun '(entity_type, pattern) =>
           (entity_type, collect_matches (regex_iterate pattern text)))
        entity_patterns_.
Proof. reflexivity. Qed.

Lemma extract_entities_find (text C : string) :
  map_find C (extract_entities regex_iterate text)
  = option_map (fun pattern => collect_matches (regex_iterate pattern text))
      (map_find C entity_patterns_).
Proof.
  rewrite extract_entities_eq.
  apply (map_find_map (fun _ pattern => collect_matches (regex_iterate pattern text))).
Qed.

(** C6. For every text, the mapping returned by [extract_entities] has
    an entry for each of person, organization, location, date, email
    and url, which are the categories of the catalog, and for nothing
    else; where nothing matches, each entry is the empty sequence. *)
Theorem extract_entities_categories (T : string) :
  (forall C, In C catalog_categories <-> In C (map_keys entity_patterns_)) /\
  Forall (fun C => exists l,
              map_find C (extract_entities regex_iterate T) = Some l)
         catalog_categories /\
  map_keys (extract_entities regex_iterate T) = map_keys entity_patterns_ /\
  ((forall pattern, regex_iterate pattern T = []) ->
   Forall (fun C => map_find C (extract_entities regex_iterate T) = Some [])
          catalog_categories).
Proof.
  split; [|split; [|split]].
  - intros C. cbn. tauto.
  - repeat constructor; rewrite extract_entities_find; cbn; eauto.
  - reflexivity.
  - intros Hnone.
    repeat constructor; rewrite extract_entities_find; cbn;
      now rewrite Hnone.
Qed.

(** C7. The list that [extract_entities] stores under a category holds
    no string twice and lists the matches of the category's pattern in
    the order in which each is first seen: what stands before [x] in the
    list is what was matched before the first match [x]. *)
Theorem extract_entities_first_seen (T C : string) (l : list string) :
  map_find C (extract_entities regex_iterate T) = Some l ->
  exists pattern,
    map_find C entity_patterns_ = Some pattern /\
    NoDup l /\
    (forall x, In x l <-> In x (regex_iterate pattern T)) /\
    (forall before x after,
        regex_iterate pattern T = before ++ x :: after -> ~ In x before ->
        exists l1 l2,
          l = l1 ++ x :: l2 /\ forall y, In y l1 <-> In y before).
Proof.
  rewrite extract_entities_find.
  destruct (map_find C entity_patterns_) as [pattern|]; [|discriminate].
  cbn. intros H. injection H as <-. exists pattern.
  split; [reflexivity|]. apply collect_matches_first_seen.
Qed.

End ExtractionFacts.

Lemma extract_entities_first_seen_witness :
  exists pattern,
    map_find "person" entity_patterns_ = Some pattern /\
    NoDup ["Jane Doe"; "Acme Corp"] /\
    (forall x, In x ["Jane Doe"; "Acme Corp"]
               <-> In x ["Jane Doe"; "Acme Corp"; "Jane Doe"]) /\
    (forall before x after,
        ["Jane Doe"; "Acme Corp"; "Jane Doe"] = before ++ x :: after ->
        ~ In x before ->
        exists l1 l2,
          ["Jane Doe"; "Acme Corp"] = l1 ++ x :: l2 /\
          forall y, In y l1 <-> In y before).
Proof.
  apply (extract_entities_first_seen
           (fun _ _ => ["Jane Doe"; "Acme Corp"; "Jane Doe"])
           "Jane Doe met Acme Corp and Jane Doe" "person").
  reflexivity.
Defined.

(** * Further properties *)

(** ** Tokenization and summaries *)

(** Tokenization always returns; every token is a non-empty run of
    non-whitespace characters, and there is no token exactly when the
    text holds whitespace only. *)
Theorem tokenize_tokens (T : string) :
  exists tokens,
    tokenize T = Some tokens /\
    Forall is_token tokens /\
    (tokens = [] <-> all_chars isspace T = true).
Proof.
  exists (words T). split; [apply tokenize_words|].
  split; [apply words_tokens|apply words_nil].
Qed.

(** Tokens joined by single spaces tokenize back to the same tokens. *)
Theorem tokenize_join_spaces (ws : list string) :
  Forall is_token ws -> tokenize (join_spaces ws) = Some ws.
Proof. intros H. rewrite tokenize_words. f_equal. now apply words_join. Qed.

Lemma tokenize_join_spaces_witness :
  tokenize (join_spaces ["one"; "two"; "three"]) = Some ["one"; "two"; "three"].
Proof.
  apply (tokenize_join_spaces ["one"; "two"; "three"]).
  repeat constructor; discriminate.
Defined.

Lemma summary_words (T : string) (m : Z) :
  Z.of_nat (String.length T) <= INT_MAX ->
  exists out,
    summarize_text T m = Some out /\
    words out = firstn (Z.to_nat m) (words T) /\
    (out = T \/
     out = join_spaces (firstn (Z.to_nat m) (words T)) /\
     m < Z.of_nat (List.length (words T))).
Proof.
  intros Hlen. rewrite summarize_text_eq by assumption.
  destruct (Z.leb_spec (Z.of_nat (List.length (words T))) m) as [H|H];
    eexists; (split; [reflexivity|]).
  - split; [|now left]. symmetry. apply firstn_all2. lia.
  - split; [|now right]. apply words_join, Forall_firstn, words_tokens.
Qed.

(** The tokens of the summary, its maximal runs of non-whitespace
    characters, are the first [maxTokens] such runs of the text (none
    for a negative bound), on a text shorter than 2 GiB; and the code's
    tokenizer finds these runs in both. *)
Theorem summarize_text_tokens (T : string) (maxTokens : Z) :
  Z.of_nat (String.length T) <= INT_MAX ->
  exists out,
    summarize_text T maxTokens = Some out /\
    words out = firstn (Z.to_nat maxTokens) (words T) /\
    tokenize T = Some (words T) /\
    tokenize out = Some (firstn (Z.to_nat maxTokens) (words T)).
Proof.
  intros Hlen. destruct (summary_words T maxTokens Hlen) as (out & Ho & Hw & _).
  exists out. split; [assumption|]. split; [assumption|].
  split; [apply tokenize_words|]. rewrite tokenize_words. now f_equal.
Qed.

Lemma summarize_text_tokens_witness :
  exists out,
    summarize_text "a  b c" 2 = Some out /\
    words out = firstn (Z.to_nat 2) (words "a  b c") /\
    tokenize "a  b c" = Some (words "a  b c") /\
    tokenize out = Some (firstn (Z.to_nat 2) (words "a  b c")).
Proof.
  apply (summarize_text_tokens "a  b c" 2). vm_compute. discriminate.
Defined.

Lemma join_spaces_cons_length (w : string) (l : list string) :
  String.length (join_spaces (w :: l))
  = match l with
    | [] => String.length w
    | _ => (String.length w + 1 + String.length (join_spaces l))%nat
    end.
Proof.
  destruct l as [|x l]; [reflexivity|].
  change (join_spaces (w :: x :: l))
    with (w ++ String " " (join_spaces (x :: l)))%string.
  rewrite append_length. cbn [String.length]. lia.
Qed.

Lemma join_spaces_firstn_length (l : list string) :
  forall k,
    (String.length (join_spaces (firstn k l))
     <= String.length (join_spaces l))%nat.
Proof.
  induction l as [|w l IH]; intros [|k]; cbn [firstn]; try (cbn; lia).
  rewrite !join_spaces_cons_length. specialize (IH k).
  destruct (firstn k l) eqn:E; destruct l; try lia.
  destruct k; discriminate.
Qed.

Lemma scan_words_join_length (s : string) :
  forall cur,
    (String.length (join_spaces (scan_words s cur))
     <= String.length cur + String.length s)%nat.
Proof.
  induction s as [|c s IH]; intros cur; cbn [scan_words String.length].
  - destruct cur; cbn; lia.
  - destruct (isspace c).
    + specialize (IH ""). cbn [String.length] in IH.
      destruct (is_empty cur); [lia|].
      rewrite join_spaces_cons_length.
      destruct (scan_words s ""); lia.
    + specialize (IH (cur ++ String c "")%string).
      rewrite append_length in IH. cbn [String.length] in IH. lia.
Qed.

Lemma summary_shorter (T : string) (k : nat) :
  (String.length (join_spaces (firstn k (words T))) <= String.length T)%nat.
Proof.
  pose proof (join_spaces_firstn_length (words T) k).
  pose proof (scan_words_join_length T ""). unfold words in *.
  cbn [String.length] in *. lia.
Qed.

(** The summary is never longer than the text (text shorter than
    2 GiB). *)
Theorem summarize_text_length (T : string) (maxTokens : Z) :
  Z.of_nat (String.length T) <= INT_MAX ->
  exists out,
    summarize_text T maxTokens = Some out /\
    (String.length out <= String.length T)%nat.
Proof.
  intros Hlen.
  destruct (summary_words T maxTokens Hlen) as (out & Ho & _ & [E|[E _]]);
    exists out; (split; [assumption|]); subst out; [lia|].
  apply summary_shorter.
Qed.

Lemma summarize_text_length_witness :
  exists out,
    summarize_text "  many   spaces  here " 2 = Some out /\
    (String.length out <= String.length "  many   spaces  here ")%nat.
Proof.
  apply (summarize_text_length "  many   spaces  here " 2).
  vm_compute. discriminate.
Defined.

(** Summarizing a summary is summarizing once with the smaller bound; in
    particular [summarize_text] is idempotent (text shorter than
    2 GiB). *)
Theorem summarize_text_compose (T : string) (m1 m2 : Z) :
  Z.of_nat (String.length T) <= INT_MAX ->
  exists out,
    summarize_text T m1 = Some out /\
    summarize_text out m2 = summarize_text T (Z.min m1 m2) /\
    summarize_text out m1 = Some out.
Proof.
  intros Hlen.
  assert (Hcompose : forall m,
    summarize_text
      (if Z.of_nat (List.length (words T)) <=? m1 then T
       else join_spaces (firstn (Z.to_nat m1) (words T))) m
    = summarize_text T (Z.min m1 m)).
  { intros m. rewrite (summarize_text_eq T (Z.min m1 m)) by assumption.
    destruct (Z.leb_spec (Z.of_nat (List.length (words T))) m1) as [H1|H1].
    - rewrite summarize_text_eq by assumption. f_equal.
      destruct (Z.leb_spec (Z.of_nat (List.length (words T))) m);
        destruct (Z.leb_spec (Z.of_nat (List.length (words T))) (Z.min m1 m));
        try reflexivity; try lia.
      f_equal. f_equal. lia.
    - pose proof (summary_shorter T (Z.to_nat m1)) as Hs.
      rewrite summarize_text_eq by lia.
      rewrite words_join by (apply Forall_firstn, words_tokens).
      rewrite length_firstn, firstn_firstn. f_equal.
      destruct (Z.leb_spec (Z.of_nat (List.length (words T))) (Z.min m1 m));
        [lia|].
      destruct (Z.leb_spec
                  (Z.of_nat (Nat.min (Z.to_nat m1) (List.length (words T)))) m).
      + destruct (Z.le_gt_cases m1 m).
        * now rewrite Z.min_l by assumption.
        * replace (Z.to_nat m1) with 0%nat by lia.
          replace (Z.to_nat (Z.min m1 m)) with 0%nat by lia. reflexivity.
      + do 2 f_equal. lia. }
  rewrite (summarize_text_eq T m1) by assumption.
  eexists. split; [reflexivity|]. split; [apply Hcompose|].
  rewrite Hcompose, Z.min_id. now apply summarize_text_eq.
Qed.

Lemma summarize_text_compose_witness :
  exists out,
    summarize_text "a b c d e" 4 = Some out /\
    summarize_text out 2 = summarize_text "a b c d e" (Z.min 4 2) /\
    summarize_text out 4 = Some out.
Proof.
  apply (summarize_text_compose "a b c d e" 4 2). vm_compute. discriminate.
Defined.

(** ** Relationship inference *)

Lemma relationship_loops_mentions (sentences : list string)
    (E : std_map (list string)) (t : triple) :
  In t (relationship_loops sentences E) <->
  exists sentence c1 c2,
    In sentence sentences /\
    mentions c1 (subject t) E /\ contains sentence (subject t) = true /\
    mentions c2 (object t) E /\ contains sentence (object t) = true /\
    object t <> subject t /\
    predicate t = ("RELATED_TO_" ++ c2)%string.
Proof.
  rewrite relationship_loops_In. unfold mentions. split.
  - intros (s & c1 & l1 & c2 & l2 & H). exists s, c1, c2.
    intuition eauto.
  - intros (s & c1 & c2 & Hs & (l1 & H1 & H1') & Hc1 & (l2 & H2 & H2') & H).
    exists s, c1, l1, c2, l2. intuition.
Qed.

Lemma strictly_sorted_ext (l1 l2 : list triple) :
  StronglySorted triple_lex_lt l1 -> StronglySorted triple_lex_lt l2 ->
  (forall t, In t l1 <-> In t l2) -> l1 = l2.
Proof.
  intros H1 H2 Hin.
  apply sorted_perm_eq; try now apply strictly_sorted_le.
  apply NoDup_Permutation; try now apply strictly_sorted_NoDup.
  exact Hin.
Qed.

(** Every relationship comes with its reverse: when [(a, p, b)] is
    returned, so is [(b, p', a)] for some predicate [p']. *)
Theorem extract_relationships_reverse (T : string)
    (E : std_map (list string)) :
  exists relationships,
    extract_relationships T E = Some relationships /\
    forall t, In t relationships ->
      exists p, In (object t, p, subject t) relationships.
Proof.
  eexists. split; [apply extract_relationships_eq|].
  intros t Ht. apply relationships_In, relationship_loops_mentions in Ht.
  destruct Ht as (s & c1 & c2 & Hs & M1 & C1 & M2 & C2 & Hne & _).
  exists ("RELATED_TO_" ++ c1)%string.
  apply relationships_In, relationship_loops_mentions.
  exists s, c2, c1. cbn. intuition congruence.
Qed.

(** The result depends only on which entity is listed under which
    category: the order of the lists and repeated entries do not
    matter. *)
Theorem extract_relationships_extensional (T : string)
    (E E' : std_map (list string)) :
  (forall c e, mentions c e E <-> mentions c e E') ->
  extract_relationships T E = extract_relationships T E'.
Proof.
  intros HE. rewrite !extract_relationships_eq. f_equal.
  apply strictly_sorted_ext;
    try (apply std_unique_sorted, std_sort_sorted).
  intros t. rewrite !relationships_In, !relationship_loops_mentions.
  split; intros (s & c1 & c2 & Hs & M1 & C1 & M2 & H);
    exists s, c1, c2; (split; [assumption|]);
    (split; [now apply HE|]); (split; [assumption|]);
    (split; [now apply HE|assumption]).
Qed.

Lemma extract_relationships_extensional_witness :
  extract_relationships "Ann met Bob. Bob left."
    [("person", ["Ann"; "Bob"])]
  = extract_relationships "Ann met Bob. Bob left."
      [("person", ["Bob"; "Ann"; "Bob"])].
Proof.
  apply extract_relationships_extensional.
  intros c e. unfold mentions. split; intros (l & [H|[]] & Hl);
    injection H as <- <-; eexists; (split; [now left|]);
    simpl in *; tauto.
Defined.

(** A larger mapping gives at least the same relationships. *)
Theorem extract_relationships_monotone (T : string)
    (E E' : std_map (list string)) :
  (forall c e, mentions c e E -> mentions c e E') ->
  exists relationships relationships',
    extract_relationships T E = Some relationships /\
    extract_relationships T E' = Some relationships' /\
    incl relationships relationships'.
Proof.
  intros HE. do 2 eexists.
  split; [apply extract_relationships_eq|].
  split; [apply extract_relationships_eq|].
  intros t Ht. apply relationships_In, relationship_loops_mentions in Ht.
  destruct Ht as (s & c1 & c2 & Hs & M1 & C1 & M2 & H).
  apply relationships_In, relationship_loops_mentions.
  exists s, c1, c2. intuition.
Qed.

Lemma extract_relationships_monotone_witness :
  exists relationships relationships',
    extract_relationships "Ann met Bob" [("person", ["Ann"; "Bob"])]
    = Some relationships /\
    extract_relationships "Ann met Bob"
      [("person", ["Ann"; "Bob"]); ("verb", ["met"])]
    = Some relationships' /\
    incl relationships relationships'.
Proof.
  apply extract_relationships_monotone.
  intros c e (l & [H|[]] & Hl). exists l. split; [now left|assumption].
Defined.

(** No relationship is returned exactly when no stretch of the text
    without a period holds two different listed entities; so none for the
    empty text and none for the empty mapping. *)
Theorem extract_relationships_none (T : string)
    (E : std_map (list string)) :
  (extract_relationships T E = Some [] <->
   forall stretch c1 e1 c2 e2,
     substring_of stretch T -> has_char "." stretch = false ->
     mentions c1 e1 E -> substring_of e1 stretch ->
     mentions c2 e2 E -> substring_of e2 stretch -> e1 = e2) /\
  extract_relationships "" E = Some [] /\
  extract_relationships T [] = Some [].
Proof.
  split; [|split; [reflexivity|]].
  - rewrite extract_relationships_eq. split.
    + intros H w c1 e1 c2 e2 HwT Hw M1 S1 M2 S2.
      destruct (string_dec e1 e2) as [|Hne]; [assumption|exfalso].
      injection H as H.
      assert (Hwne : w <> "").
      { intros ->. apply Hne.
        destruct S1 as (p1 & q1 & H1), S2 as (p2 & q2 & H2).
        destruct p1; [|discriminate]. destruct p2; [|discriminate].
        destruct e1; [|discriminate]. destruct e2; [|discriminate].
        reflexivity. }
      destruct (scan_sentences_covers w Hwne Hw T "" HwT) as (s & Hs & Hws).
      assert (Hin : In (e1, ("RELATED_TO_" ++ c2)%string, e2)
                      (std_unique (std_sort
                         (relationship_loops (scan_sentences T "") E)))).
      { apply relationships_In, relationship_loops_mentions.
        exists s, c1, c2. cbn. rewrite !contains_substring.
        repeat split; try assumption; try congruence;
          eapply substring_of_trans; eassumption. }
      rewrite H in Hin. exact Hin.
    + intros H. f_equal.
      destruct (std_unique _) as [|t r] eqn:Er; [reflexivity|exfalso].
      assert (Hin : In t (std_unique (std_sort
                            (relationship_loops (scan_sentences T "") E))))
        by (rewrite Er; now left).
      apply relationships_In, relationship_loops_mentions in Hin.
      destruct Hin as (s & c1 & c2 & Hs & M1 & C1 & M2 & C2 & Hne & _).
      apply contains_substring in C1, C2.
      destruct (scan_sentences_In T "" s eq_refl Hs) as (Hp & Hsub).
      apply Hne. symmetry. eapply (H s); eassumption.
  - rewrite extract_relationships_eq. f_equal.
    destruct (std_unique _) as [|t r] eqn:Er; [reflexivity|exfalso].
    assert (Hin : In t (std_unique (std_sort
                          (relationship_loops (scan_sentences T "") []))))
      by (rewrite Er; now left).
    apply relationships_In, relationship_loops_mentions in Hin.
    destruct Hin as (s & c1 & c2 & _ & (l & [] & _) & _).
Qed.

(** ** Extraction followed by inference *)

Lemma map_find_In {V : Type} (m : std_map V) (k : string) (v : V) :
  map_find k m = Some v -> In (k, v) m.
Proof.
  induction m as [|[k' v'] m IH]; simpl; [discriminate|].
  destruct (String.eqb_spec k k') as [->|Hne].
  - intros H. injection H as ->. now left.
  - intros H. right. now apply IH.
Qed.

Lemma entity_patterns_keys : NoDup (map_keys entity_patterns_).
Proof.
  cbn. repeat constructor; cbn; intuition discriminate.
Qed.

Section PipelineFacts.

Variable regex_iterate : string -> string -> list string.

Lemma mentions_extract_entities (T c e : string) :
  mentions c e (extract_entities regex_iterate T) <->
  exists pattern,
    map_find c entity_patterns_ = Some pattern /\
    In e (regex_iterate pattern T).
Proof.
  unfold mentions. rewrite extract_entities_eq. split.
  - intros (l & Hin & He). apply in_map_iff in Hin as ([c' p] & Heq & Hp).
    injection Heq as -> <-. exists p. split.
    + apply map_find_entry; [apply entity_patterns_keys|assumption].
    + now apply collect_matches_first_seen.
  - intros (p & Hf & He). apply map_find_In in Hf.
    exists (collect_matches (regex_iterate p T)). split.
    + apply in_map_iff. exists (c, p). split; [reflexivity|assumption].
    + now apply collect_matches_first_seen.
Qed.

(** On the mapping that [extract_entities] returns for the same text,
    subject and object of every relationship are matches of catalog
    patterns, and the predicate names the catalog category whose pattern
    matched the object. *)
Theorem extract_then_relate (T : string) :
  exists relationships,
    extract_relationships T (extract_entities regex_iterate T)
    = Some relationships /\
    forall t, In t relationships ->
      (exists c pattern,
          map_find c entity_patterns_ = Some pattern /\
          In (subject t) (regex_iterate pattern T)) /\
      (exists c pattern,
          In c catalog_categories /\
          map_find c entity_patterns_ = Some pattern /\
          In (object t) (regex_iterate pattern T) /\
          predicate t = ("RELATED_TO_" ++ c)%string).
Proof.
  eexists. split; [apply extract_relationships_eq|].
  intros t Ht. apply relationships_In, relationship_loops_mentions in Ht.
  destruct Ht as (s & c1 & c2 & _ & M1 & _ & M2 & _ & _ & Hp).
  apply mentions_extract_entities in M1 as (p1 & F1 & I1).
  apply mentions_extract_entities in M2 as (p2 & F2 & I2).
  split; [eauto|]. exists c2, p2. repeat split; try assumption.
  apply map_find_In in F2. apply (in_map fst) in F2.
  cbn in F2. cbn. tauto.
Qed.

End PipelineFacts.

(** ** KeyAssassin::Cleanse *)

Lemma cleanse_loop_eq (input : string) :
  forall result escape,
    cleanse_loop input result escape
    = ((result ++ unescaped input escape)%string, escape_after input escape).
Proof.
  induction input as [|c input IH]; intros result escape; cbn.
  - now rewrite append_nil_r.
  - unfold push_char. destruct escape.
    + repeat (destruct (Ascii.eqb c _)); rewrite IH;
        rewrite ?append_assoc; reflexivity.
    + destruct (Ascii.eqb c _); rewrite IH;
        rewrite ?append_assoc; reflexivity.
Qed.

Lemma Cleanse_unescaped (input : string) :
  Cleanse input = unescaped input false.
Proof. unfold Cleanse. now rewrite cleanse_loop_eq. Qed.

Lemma dangling_escape_after (input : string) :
  dangling_escape input = escape_after input false.
Proof. unfold dangling_escape. now rewrite cleanse_loop_eq. Qed.

Lemma unescaped_length (input : string) :
  forall escape,
    (String.length (unescaped input escape)
     + (if escape_after input escape then 1 else 0)
     <= String.length input + (if escape then 1 else 0))%nat.
Proof.
  induction input as [|c input IH]; intros escape; cbn.
  - destruct escape; lia.
  - destruct escape.
    + specialize (IH false). cbn in IH.
      destruct (escape_after input false);
        repeat (destruct (Ascii.eqb c _)); cbn; lia.
    + destruct (Ascii.eqb c _).
      * specialize (IH true). cbn in IH.
        destruct (escape_after input true); lia.
      * specialize (IH false). cbn in *.
        destruct (escape_after input false); lia.
Qed.

(** [Cleanse] never returns more characters than it is given, and one
    fewer at least when the input stops in the middle of an escape. *)
Theorem Cleanse_length (input : string) :
  (String.length (Cleanse input)
   + (if dangling_escape input then 1 else 0)
   <= String.length input)%nat.
Proof.
  rewrite Cleanse_unescaped, dangling_escape_after.
  pose proof (unescaped_length input false) as H. cbn in H.
  destruct (escape_after input false); lia.
Qed.

(** An input without a backslash is returned as it is. *)
Theorem Cleanse_no_backslash (input : string) :
  has_char backslash input = false -> Cleanse input = input.
Proof.
  rewrite Cleanse_unescaped.
  induction input as [|c input IH]; cbn; [reflexivity|].
  intros H. apply orb_false_elim in H as [Hc Hi].
  rewrite Hc. f_equal. now apply IH.
Qed.

Lemma Cleanse_no_backslash_witness :
  Cleanse "plain text, no escapes" = "plain text, no escapes".
Proof. apply Cleanse_no_backslash. reflexivity. Defined.

Lemma unescaped_append (a b : string) :
  forall escape,
    unescaped (a ++ b) escape
    = (unescaped a escape ++ unescaped b (escape_after a escape))%string.
Proof.
  induction a as [|c a IH]; intros escape; cbn; [reflexivity|].
  destruct escape.
  - repeat (destruct (Ascii.eqb c _)); rewrite IH; reflexivity.
  - destruct (Ascii.eqb c _); rewrite IH; reflexivity.
Qed.

Lemma escape_after_append (a b : string) :
  forall escape,
    escape_after (a ++ b) escape = escape_after b (escape_after a escape).
Proof.
  induction a as [|c a IH]; intros escape; cbn; [reflexivity|].
  destruct escape; apply IH.
Qed.

(** Cleansing a text in two pieces gives the same as cleansing it whole,
    provided the first piece does not stop in the middle of an escape. *)
Theorem Cleanse_append (a b : string) :
  dangling_escape a = false ->
  Cleanse (a ++ b) = (Cleanse a ++ Cleanse b)%string.
Proof.
  rewrite !Cleanse_unescaped, dangling_escape_after, unescaped_append.
  now intros ->.
Qed.

Lemma Cleanse_append_witness :
  Cleanse ("a\nb" ++ "\tc") = (Cleanse "a\nb" ++ Cleanse "\tc")%string.
Proof. apply Cleanse_append. reflexivity. Defined.

(** A backslash that ends the input is dropped, and the input is then
    reported as stopping in the middle of an escape. *)
Theorem Cleanse_trailing_backslash (a : string) :
  dangling_escape a = false ->
  Cleanse (a ++ String backslash "") = Cleanse a /\
  dangling_escape (a ++ String backslash "") = true.
Proof.
  rewrite !Cleanse_unescaped, !dangling_escape_after.
  rewrite unescaped_append, escape_after_append.
  intros ->. cbn. now rewrite append_nil_r.
Qed.

Lemma Cleanse_trailing_backslash_witness :
  Cleanse ("path" ++ String backslash "") = Cleanse "path" /\
  dangling_escape ("path" ++ String backslash "") = true.
Proof. apply Cleanse_trailing_backslash. reflexivity. Defined.

(** [Cleanse] undoes the escaping of newline, tab, double quote and
    backslash, whatever the text. *)
Theorem Cleanse_escape_text (s : string) : Cleanse (escape_text s) = s.
Proof.
  rewrite Cleanse_unescaped.
  induction s as [|c s IH]; [reflexivity|]. cbn [escape_text].
  destruct (Ascii.eqb_spec c newline) as [->|Hn]; [cbn; now rewrite IH|].
  destruct (Ascii.eqb_spec c tab) as [->|Ht]; [cbn; now rewrite IH|].
  destruct (Ascii.eqb_spec c double_quote) as [->|Hq]; [cbn; now rewrite IH|].
  destruct (Ascii.eqb_spec c backslash) as [->|Hb]; [cbn; now rewrite IH|].
  cbn [unescaped]. apply Ascii.eqb_neq in Hb. now rewrite Hb, IH.
Qed.

(** ** Fingerprint::Distance *)

Lemma popcount_le (n : nat) : forall x, (popcount n x <= n)%nat.
Proof.
  induction n as [|n IH]; intros x; cbn [popcount]; [lia|].
  specialize (IH (Z.div2 x)). destruct (Z.odd x); lia.
Qed.

Lemma div2_bound (n : nat) (x : Z) :
  0 <= x < 2 ^ Z.of_nat (S n) -> 0 <= Z.div2 x < 2 ^ Z.of_nat n.
Proof.
  intros H. rewrite Nat2Z.inj_succ, Z.pow_succ_r in H by lia.
  pose proof (Z.div2_odd x) as E.
  destruct (Z.odd x); cbn [Z.b2z] in E; lia.
Qed.

Lemma popcount_zero (n : nat) :
  forall x, 0 <= x < 2 ^ Z.of_nat n -> (popcount n x = 0%nat <-> x = 0).
Proof.
  induction n as [|n IH]; intros x Hx.
  - cbn in *. split; [lia|reflexivity].
  - cbn [popcount]. pose proof (div2_bound n x Hx) as Hd.
    pose proof (Z.div2_odd x) as E. specialize (IH _ Hd).
    destruct (Z.odd x); cbn [Z.b2z] in E.
    + split; [lia|]. intros ->. cbn in E. lia.
    + cbn [Nat.add]. rewrite IH. lia.
Qed.

Lemma odd_land (a b : Z) : Z.odd (Z.land a b) = Z.odd a && Z.odd b.
Proof. rewrite <- !Z.bit0_odd. apply Z.land_spec. Qed.

Lemma odd_lxor (a b : Z) : Z.odd (Z.lxor a b) = xorb (Z.odd a) (Z.odd b).
Proof. rewrite <- !Z.bit0_odd. apply Z.lxor_spec. Qed.

Lemma div2_land (a b : Z) :
  Z.div2 (Z.land a b) = Z.land (Z.div2 a) (Z.div2 b).
Proof. rewrite !Z.div2_spec. apply Z.shiftr_land. Qed.

Lemma div2_lxor (a b : Z) :
  Z.div2 (Z.lxor a b) = Z.lxor (Z.div2 a) (Z.div2 b).
Proof. rewrite !Z.div2_spec. apply Z.shiftr_lxor. Qed.

(** [x & (x - 1)] clears one set bit of a non-zero word. *)
Lemma clear_lowest_bit (n : nat) :
  forall x,
    0 < x < 2 ^ Z.of_nat n ->
    0 <= Z.land x (x - 1) < 2 ^ Z.of_nat n /\
    (popcount n (Z.land x (x - 1)) + 1 = popcount n x)%nat.
Proof.
  induction n as [|n IH]; intros x Hx; [cbn in Hx; lia|].
  assert (Hx0 : 0 <= x < 2 ^ Z.of_nat (S n)) by lia.
  pose proof (div2_bound n x Hx0) as Hd.
  pose proof (Z.div2_odd x) as Ex.
  pose proof (Z.div2_odd (x - 1)) as Ep.
  pose proof (Z.div2_odd (Z.land x (x - 1))) as El.
  assert (Ho : Z.odd (x - 1) = negb (Z.odd x))
    by (now rewrite Z.sub_1_r, Z.odd_pred, Z.negb_odd).
  rewrite odd_land, div2_land, Ho in El. rewrite Ho in Ep.
  cbn [popcount]. rewrite odd_land, div2_land, Ho.
  rewrite Nat2Z.inj_succ, Z.pow_succ_r in * by lia.
  destruct (Z.odd x); cbn [negb andb Z.b2z] in *.
  - assert (E : Z.div2 (x - 1) = Z.div2 x) by lia.
    rewrite E, Z.land_diag in *. split; lia.
  - assert (E : Z.div2 (x - 1) = Z.div2 x - 1) by lia.
    rewrite E in *.
    destruct (IH (Z.div2 x)) as [Hb Hp]; [lia|].
    split; lia.
Qed.

Lemma kernighan_loop_spec (fuel : nat) :
  forall x count,
    0 <= x < 2 ^ 64 -> (popcount 64 x < fuel)%nat ->
    kernighan_loop fuel x count = Some (count + Z.of_nat (popcount 64 x)).
Proof.
  induction fuel as [|fuel IH]; intros x count Hx Hf; [lia|].
  cbn [kernighan_loop]. destruct (Z.eqb_spec x 0) as [->|Hne].
  - cbn. f_equal. lia.
  - destruct (clear_lowest_bit 64 x) as [Hb Hp]; [cbn; lia|].
    change (2 ^ Z.of_nat 64) with (2 ^ 64) in Hb.
    rewrite IH by (assumption || lia). f_equal. lia.
Qed.

(** The portable population count returns, and returns what the builtin
    does: both branches of [Distance] agree on 64-bit words. *)
Theorem Distance_fallback_agrees (a b : Z) :
  is_uint64 a -> is_uint64 b ->
  Distance_fallback a b = Some (Distance a b).
Proof.
  unfold is_uint64, Distance_fallback, Distance, builtin_popcountll.
  intros Ha Hb. cbv zeta.
  assert (Hx : 0 <= Z.lxor a b < 2 ^ 64).
  { split; [apply Z.lxor_nonneg; lia|].
    destruct (Z.eq_dec (Z.lxor a b) 0) as [->|Hne]; [lia|].
    apply Z.log2_lt_pow2; [pose proof (Z.lxor_nonneg a b); lia|].
    eapply Z.le_lt_trans; [apply Z.log2_lxor; lia|].
    apply Z.max_lub_lt.
    - destruct (Z.eq_dec a 0) as [->|]; [cbn; lia|].
      apply Z.log2_lt_pow2; lia.
    - destruct (Z.eq_dec b 0) as [->|]; [cbn; lia|].
      apply Z.log2_lt_pow2; lia. }
  rewrite kernighan_loop_spec; [reflexivity|assumption|].
  pose proof (popcount_le 64 (Z.lxor a b)). lia.
Qed.

Lemma Distance_fallback_agrees_witness :
  Distance_fallback 10 12 = Some (Distance 10 12).
Proof. apply Distance_fallback_agrees; unfold is_uint64; lia. Defined.

(** The distance lies between 0 and 64, does not depend on the order of
    its arguments, and is 0 between equal words. *)
Theorem Distance_range_sym (a b : Z) :
  0 <= Distance a b <= 64 /\
  Distance a b = Distance b a /\
  Distance a a = 0.
Proof.
  unfold Distance, builtin_popcountll. cbv zeta. split; [|split].
  - pose proof (popcount_le 64 (Z.lxor a b)). lia.
  - now rewrite Z.lxor_comm.
  - now rewrite Z.lxor_nilpotent.
Qed.

(** Distance 0 between 64-bit words means they are equal. *)
Theorem Distance_zero (a b : Z) :
  is_uint64 a -> is_uint64 b -> Distance a b = 0 -> a = b.
Proof.
  unfold is_uint64, Distance, builtin_popcountll. cbv zeta.
  intros Ha Hb H. apply Z.lxor_eq.
  apply (popcount_zero 64); [|lia].
  change (2 ^ Z.of_nat 64) with (2 ^ 64).
  split; [apply Z.lxor_nonneg; lia|].
  destruct (Z.eq_dec (Z.lxor a b) 0) as [->|Hne]; [lia|].
  apply Z.log2_lt_pow2; [pose proof (Z.lxor_nonneg a b); lia|].
  eapply Z.le_lt_trans; [apply Z.log2_lxor; lia|].
  apply Z.max_lub_lt.
  - destruct (Z.eq_dec a 0) as [->|]; [cbn; lia|].
    apply Z.log2_lt_pow2; lia.
  - destruct (Z.eq_dec b 0) as [->|]; [cbn; lia|].
    apply Z.log2_lt_pow2; lia.
Qed.

Lemma Distance_zero_witness : 42 = 42.
Proof.
  apply (Distance_zero 42 42); unfold is_uint64; try lia. reflexivity.
Defined.

Lemma popcount_triangle (n : nat) :
  forall x y,
    (popcount n (Z.lxor x y) <= popcount n x + popcount n y)%nat.
Proof.
  induction n as [|n IH]; intros x y; cbn [popcount]; [lia|].
  rewrite odd_lxor, div2_lxor. specialize (IH (Z.div2 x) (Z.div2 y)).
  destruct (Z.odd x), (Z.odd y); cbn [xorb]; lia.
Qed.

(** The triangle inequality: a detour through a third word is never
    shorter. *)
Theorem Distance_triangle (a b c : Z) :
  Distance a c <= Distance a b + Distance b c.
Proof.
  unfold Distance, builtin_popcountll. cbv zeta.
  replace (Z.lxor a c) with (Z.lxor (Z.lxor a b) (Z.lxor b c)).
  - pose proof (popcount_triangle 64 (Z.lxor a b) (Z.lxor b c)). lia.
  - rewrite Z.lxor_assoc, <- (Z.lxor_assoc b b c), Z.lxor_nilpotent.
    now rewrite Z.lxor_0_l.
Qed.

(** ** Fingerprint::Generate *)

Lemma array_set_length (a : list Z) (i : nat) (v : Z) :
  (i < List.length a)%nat -> List.length (array_set a i v) = List.length a.
Proof.
  intros H. unfold array_set.
  rewrite length_app, length_firstn. cbn [List.length].
  rewrite length_skipn. lia.
Qed.

Lemma array_set_nth (a : list Z) (i k : nat) (v : Z) :
  (i < List.length a)%nat ->
  nth k (array_set a i v) 0 = if (k =? i)%nat then v else nth k a 0.
Proof.
  intros H. unfold array_set.
  assert (Hf : List.length (firstn i a) = i) by (rewrite length_firstn; lia).
  destruct (Nat.eqb_spec k i) as [->|Hne].
  - rewrite app_nth2 by lia. now rewrite Hf, Nat.sub_diag.
  - destruct (Nat.lt_ge_cases k i) as [Hlt|Hge].
    + rewrite app_nth1 by lia. now rewrite nth_firstn, (proj2 (Nat.ltb_lt k i)).
    + rewrite app_nth2 by lia. rewrite Hf.
      destruct (k - i)%nat as [|d] eqn:E; [lia|]. cbn [nth].
      rewrite nth_skipn. f_equal. lia.
Qed.

Lemma bit_set_testbit (h : Z) (bit : nat) :
  bit_set h bit = Z.testbit h (Z.of_nat bit).
Proof.
  unfold bit_set. rewrite Z.shiftl_1_l.
  destruct (Z.testbit h (Z.of_nat bit)) eqn:E.
  - apply negb_true_iff, Z.eqb_neq. intros H.
    apply (f_equal (fun z => Z.testbit z (Z.of_nat bit))) in H.
    rewrite Z.land_spec, E, Z.pow2_bits_true, Z.bits_0 in H by lia.
    discriminate.
  - apply negb_false_iff, Z.eqb_eq, Z.bits_inj'. intros n Hn.
    rewrite Z.land_spec, Z.bits_0, Z.pow2_bits_eqb by lia.
    destruct (Z.eqb_spec (Z.of_nat bit) n) as [<-|]; [now rewrite E|].
    apply andb_false_r.
Qed.

Lemma for_each_snoc {A S : Type} (l : list A) (x : A) (body : A -> S -> S)
    (s : S) :
  for_each (l ++ [x]) body s = body x (for_each l body s).
Proof. unfold for_each. now rewrite fold_left_app. Qed.

(** One token moves every weight by one, up or down with the bit of the
    hash. *)
Lemma update_weights_nth (h : Z) (weights : list Z) :
  List.length weights = 64%nat ->
  List.length (update_weights h weights) = 64%nat /\
  forall k, (k < 64)%nat ->
    nth k (update_weights h weights) 0
    = int_wrap (nth k weights 0
                + (if Z.testbit h (Z.of_nat k) then 1 else -1)).
Proof.
  intros Hlen. unfold update_weights.
  assert (G : forall n, (n <= 64)%nat ->
    let r := for_each (seq 0 n) (fun bit weights =>
               if bit_set h bit
               then array_set weights bit (int_wrap (nth bit weights 0 + 1))
               else array_set weights bit (int_wrap (nth bit weights 0 - 1)))
               weights in
    List.length r = 64%nat /\
    forall k, nth k r 0
              = if (k <? n)%nat
                then int_wrap (nth k weights 0
                               + (if Z.testbit h (Z.of_nat k) then 1 else -1))
                else nth k weights 0).
  { induction n as [|n IH]; intros Hn; cbv zeta.
    - cbn. auto.
    - rewrite seq_S, for_each_snoc. cbn [Nat.add].
      destruct (IH ltac:(lia)) as [Hl Hk]. cbv zeta in Hl, Hk.
      set (r := for_each (seq 0 n) _ weights) in *.
      rewrite bit_set_testbit.
      assert (Hr : nth n r 0 = nth n weights 0)
        by (rewrite Hk, (proj2 (Nat.ltb_ge n n)); [reflexivity|lia]).
      split.
      + destruct (Z.testbit h (Z.of_nat n)); rewrite array_set_length; lia.
      + intros k.
        replace (nth k (if Z.testbit h (Z.of_nat n)
                        then array_set r n (int_wrap (nth n r 0 + 1))
                        else array_set r n (int_wrap (nth n r 0 - 1))) 0)
          with (if (k =? n)%nat
                then int_wrap (nth n r 0
                               + (if Z.testbit h (Z.of_nat n) then 1 else -1))
                else nth k r 0).
        * rewrite Hr, Hk.
          destruct (Nat.eqb_spec k n) as [->|Hne].
          -- now rewrite (proj2 (Nat.ltb_lt n (S n))) by lia.
          -- destruct (Nat.ltb_spec k n), (Nat.ltb_spec k (S n));
               try reflexivity; lia.
        * destruct (Z.testbit h (Z.of_nat n));
            rewrite array_set_nth by lia; reflexivity. }
  destruct (G 64%nat (Nat.le_refl _)) as [Hl Hk]. split; [exact Hl|].
  intros k Hk64. cbv zeta in Hk. rewrite Hk.
  now rewrite (proj2 (Nat.ltb_lt k 64)).
Qed.

(** Bit [k] of the fingerprint is set exactly for a positive weight. *)
Lemma collapse_weights_testbit (weights : list Z) (k : nat) :
  Z.testbit (collapse_weights weights) (Z.of_nat k)
  = (k <? 64)%nat && (0 <? nth k weights 0).
Proof.
  unfold collapse_weights.
  assert (G : forall n,
    Z.testbit
      (for_each (seq 0 n) (fun bit fingerprint =>
         if 0 <? nth bit weights 0
         then Z.lor fingerprint (Z.shiftl 1 (Z.of_nat bit))
         else fingerprint) 0) (Z.of_nat k)
    = (k <? n)%nat && (0 <? nth k weights 0)).
  { induction n as [|n IH].
    - cbn. apply Z.bits_0.
    - rewrite seq_S, for_each_snoc. cbn [Nat.add].
      set (f := for_each (seq 0 n) _ 0) in *.
      destruct (0 <? nth n weights 0) eqn:E.
      + rewrite Z.lor_spec, IH, Z.shiftl_1_l, Z.pow2_bits_eqb by lia.
        destruct (Nat.eqb_spec n k) as [->|Hne].
        * rewrite (proj2 (Z.eqb_eq _ _) eq_refl), E.
          rewrite (proj2 (Nat.ltb_lt k (S k))) by lia.
          now rewrite orb_true_r.
        * rewrite (proj2 (Z.eqb_neq (Z.of_nat n) (Z.of_nat k))) by lia.
          rewrite orb_false_r.
          destruct (Nat.ltb_spec k n), (Nat.ltb_spec k (S n));
            try reflexivity; lia.
      + rewrite IH.
        destruct (Nat.eqb_spec n k) as [->|Hne].
        * rewrite E, !andb_false_r. reflexivity.
        * destruct (Nat.ltb_spec k n), (Nat.ltb_spec k (S n));
            try reflexivity; lia. }
  apply G.
Qed.

Lemma collapse_weights_nonneg (weights : list Z) :
  0 <= collapse_weights weights.
Proof.
  unfold collapse_weights, for_each.
  assert (G : forall l acc, 0 <= acc ->
    0 <= fold_left (fun st a =>
           if 0 <? nth a weights 0
           then Z.lor st (Z.shiftl 1 (Z.of_nat a)) else st) l acc).
  { induction l as [|a l IH]; intros acc Hacc; cbn; [assumption|].
    apply IH. destruct (0 <? nth a weights 0); [|assumption].
    apply Z.lor_nonneg. split; [assumption|].
    rewrite Z.shiftl_1_l. apply Z.pow_nonneg. lia. }
  apply G. lia.
Qed.

Lemma get_append_length (pre : string) (c : ascii) (suf : string) :
  get (String.length pre) (pre ++ String c suf) = Some c.
Proof. induction pre as [|d pre IH]; cbn; [reflexivity|exact IH]. Qed.

Lemma substring_none (s : string) : forall n, substring n 0 s = "".
Proof.
  induction s as [|c s IH]; intros [|n]; cbn; try reflexivity. apply IH.
Qed.

Lemma substring_length (s : string) :
  forall n m, (n + m <= String.length s)%nat ->
              String.length (substring n m s) = m.
Proof.
  induction s as [|c s IH]; intros n m H; cbn in H.
  - assert (n = 0 /\ m = 0)%nat as [-> ->] by lia. reflexivity.
  - destruct n as [|n]; cbn.
    + destruct m as [|m]; [reflexivity|]. cbn. f_equal.
      apply (IH 0%nat). cbn. lia.
    + apply IH. lia.
Qed.

Lemma substring_snoc (s : string) (c : ascii) :
  forall n m,
    get (n + m) s = Some c ->
    substring n (S m) s = (substring n m s ++ String c "")%string.
Proof.
  induction s as [|d s IH]; intros n m H; [destruct (n + m)%nat; discriminate|].
  destruct n as [|n].
  - destruct m as [|m]; cbn in *.
    + injection H as ->. now rewrite substring_none.
    + f_equal. apply (IH 0%nat). exact H.
  - cbn in *. apply IH. exact H.
Qed.

Lemma for_each_cons {A S : Type} (x : A) (l : list A) (body : A -> S -> S)
    (s : S) :
  for_each (x :: l) body s = for_each l body (body x s).
Proof. reflexivity. Qed.

Lemma fold_left_cons {A B : Type} (f : A -> B -> A) (x : B) (l : list B)
    (a : A) :
  fold_left f (x :: l) a = fold_left f l (f a x).
Proof. reflexivity. Qed.

Section FingerprintFacts.

Variable char_is_signed : bool.

Lemma weigh_tokens_nil (w : list Z) : weigh_tokens char_is_signed [] w = w.
Proof. reflexivity. Qed.

Lemma weigh_tokens_cons (t : string) (ts : list string) (w : list Z) :
  weigh_tokens char_is_signed (t :: ts) w
  = weigh_tokens char_is_signed ts
      (update_weights (HashToken char_is_signed t) w).
Proof.
  exact (fold_left_cons
           (fun w token => update_weights (HashToken char_is_signed token) w)
           t ts w).
Qed.

(** At a delimiter, or at the end, the pending token is hashed in (if
    there is one) and the next token starts after the index. *)
Lemma tokenizer_step_delimiter (input : string) (len i start : nat)
    (w : list Z) :
  (i =? len)%nat || is_delimiter_char (char_at input i) = true ->
  (start + (i - start) <= String.length input)%nat ->
  tokenizer_step char_is_signed input len i (start, w)
  = (S i,
     weigh_tokens char_is_signed
       (if is_empty (substring start (i - start) input) then []
        else [substring start (i - start) input]) w).
Proof.
  intros H Hb. unfold tokenizer_step. rewrite H.
  pose proof (substring_length input start (i - start) Hb) as Hl.
  destruct (Nat.ltb_spec start i) as [Hlt|Hge].
  - destruct (substring start (i - start) input) eqn:E;
      [cbn in Hl; lia|].
    cbn [is_empty]. now rewrite weigh_tokens_cons, weigh_tokens_nil.
  - replace (i - start)%nat with 0%nat by lia.
    rewrite substring_none. cbn [is_empty]. now rewrite weigh_tokens_nil.
Qed.

Lemma tokenizer_step_inside (input : string) (len i start : nat)
    (w : list Z) :
  (i =? len)%nat || is_delimiter_char (char_at input i) = false ->
  tokenizer_step char_is_signed input len i (start, w) = (start, w).
Proof. intros H. unfold tokenizer_step. now rewrite H. Qed.

(** The index loop hashes in the tokens of the closed form, one after the
    other. *)
Lemma tokenizer_loop (input : string) :
  forall suf pre start w,
    input = (pre ++ suf)%string ->
    (start <= String.length pre)%nat ->
    for_each (seq (String.length pre) (S (String.length suf)))
      (tokenizer_step char_is_signed input (String.length input)) (start, w)
    = (S (String.length input),
       weigh_tokens char_is_signed
         (scan_tokens suf
            (substring start (String.length pre - start) input)) w).
Proof.
  induction suf as [|c suf IH]; intros pre start w Hin Hs.
  - rewrite append_nil_r in Hin. subst pre.
    cbn [String.length seq scan_tokens]. unfold for_each. cbn [fold_left].
    rewrite tokenizer_step_delimiter; [reflexivity| |lia].
    now rewrite Nat.eqb_refl.
  - cbn [String.length].
    change (seq (String.length pre) (S (S (String.length suf))))
      with (String.length pre
            :: seq (S (String.length pre)) (S (String.length suf))).
    rewrite for_each_cons.
    assert (Hlen : String.length input
                   = (String.length pre + S (String.length suf))%nat)
      by (rewrite Hin, append_length; reflexivity).
    assert (Hc : char_at input (String.length pre) = c)
      by (unfold char_at; now rewrite Hin, get_append_length).
    assert (Hin' : input = ((pre ++ String c "") ++ suf)%string)
      by now rewrite append_snoc.
    assert (Hl' : String.length (pre ++ String c "") = S (String.length pre))
      by (rewrite append_length; cbn; lia).
    cbn [scan_tokens].
    destruct (is_delimiter_char c) eqn:Ed.
    + rewrite tokenizer_step_delimiter;
        [|rewrite Hc, Ed; apply orb_true_r|lia].
      rewrite <- Hl'. rewrite (IH _ _ _ Hin') by lia.
      rewrite Nat.sub_diag, substring_none. f_equal.
      destruct (is_empty _); [now rewrite weigh_tokens_nil|].
      now rewrite !weigh_tokens_cons, weigh_tokens_nil.
    + rewrite tokenizer_step_inside.
      2:{ rewrite Hc, Ed.
          now rewrite (proj2 (Nat.eqb_neq _ _)) by lia. }
      rewrite <- Hl'. rewrite (IH _ _ _ Hin') by lia. rewrite Hl'.
      do 3 f_equal.
      replace (S (String.length pre) - start)%nat
        with (S (String.length pre - start)) by lia.
      apply substring_snoc.
      replace (start + (String.length pre - start))%nat
        with (String.length pre) by lia.
      now rewrite Hin, get_append_length.
Qed.

(** [Generate] in closed form. *)
Lemma Generate_eq (input : string) :
  Generate char_is_signed input
  = collapse_weights
      (weigh_tokens char_is_signed (sim_tokens input) (repeat 0 64)).
Proof.
  unfold Generate.
  pose proof (tokenizer_loop input input "" 0%nat (repeat 0 64) eq_refl
                (Nat.le_0_l _)) as H.
  cbn [String.length Nat.sub] in H. rewrite substring_none in H.
  cbv zeta. now rewrite H.
Qed.

End FingerprintFacts.

Lemma int_wrap_id (z : Z) : - 2 ^ 31 <= z <= INT_MAX -> int_wrap z = z.
Proof.
  unfold int_wrap, INT_MAX. intros H. rewrite Z.mod_small; lia.
Qed.

Lemma scan_tokens_length (s : string) :
  forall cur,
    (List.length (scan_tokens s cur)
     <= String.length s + (if is_empty cur then 0 else 1))%nat.
Proof.
  induction s as [|c s IH]; cbn [scan_tokens String.length]; intros cur.
  - destruct (is_empty cur); cbn; lia.
  - destruct (is_delimiter_char c).
    + specialize (IH ""). cbn [is_empty] in IH.
      destruct (is_empty cur); cbn [List.length]; lia.
    + specialize (IH (cur ++ String c "")%string).
      rewrite is_empty_append, andb_false_r in IH. lia.
Qed.

Lemma scan_tokens_delimiters (ws : string) :
  all_chars is_delimiter_char ws = true ->
  forall s cur,
    scan_tokens (ws ++ s) cur
    = if is_empty ws then scan_tokens s cur
      else if is_empty cur then scan_tokens s ""
           else cur :: scan_tokens s "".
Proof.
  induction ws as [|c ws IH]; cbn [all_chars append is_empty scan_tokens];
    intros H s cur; [reflexivity|].
  apply andb_prop in H as [Hc Hws]. rewrite Hc, (IH Hws).
  cbn [is_empty]. destruct (is_empty ws), (is_empty cur); reflexivity.
Qed.

Lemma scan_tokens_token (t : string) :
  all_chars (fun c => negb (is_delimiter_char c)) t = true ->
  forall s cur, scan_tokens (t ++ s) cur = scan_tokens s (cur ++ t).
Proof.
  induction t as [|c t IH]; cbn [all_chars append scan_tokens]; intros H s cur.
  - now rewrite append_nil_r.
  - apply andb_prop in H as [Hc Ht]. apply negb_true_iff in Hc.
    rewrite Hc, (IH Ht). now rewrite append_snoc.
Qed.

Lemma sim_tokens_none (s : string) :
  all_chars is_delimiter_char s = true -> sim_tokens s = [].
Proof.
  intros H. unfold sim_tokens. rewrite <- (append_nil_r s).
  rewrite (scan_tokens_delimiters s H). cbn [scan_tokens is_empty].
  now destruct (is_empty s).
Qed.

Lemma sim_tokens_single (ws1 t ws2 : string) :
  all_chars is_delimiter_char ws1 = true ->
  t <> "" -> all_chars (fun c => negb (is_delimiter_char c)) t = true ->
  all_chars is_delimiter_char ws2 = true ->
  sim_tokens (ws1 ++ t ++ ws2) = [t].
Proof.
  intros H1 Hne Ht H2. unfold sim_tokens.
  rewrite (scan_tokens_delimiters ws1 H1). cbn [is_empty].
  assert (E : scan_tokens (t ++ ws2) "" = [t]).
  { rewrite (scan_tokens_token t Ht). cbn [append].
    rewrite <- (append_nil_r ws2), (scan_tokens_delimiters ws2 H2).
    cbn [scan_tokens is_empty]. apply is_empty_false in Hne. rewrite Hne.
    now destruct (is_empty ws2). }
  rewrite E. now destruct (is_empty ws1).
Qed.

Lemma testbit_above_64 (x : Z) (n : Z) :
  0 <= x < 2 ^ 64 -> 64 <= n -> Z.testbit x n = false.
Proof.
  intros Hx Hn. destruct (Z.eq_dec x 0) as [->|Hne]; [apply Z.bits_0|].
  apply Z.bits_above_log2; [lia|].
  assert (Z.log2 x < 64) by (apply Z.log2_lt_pow2; lia). lia.
Qed.

Lemma below_pow2_64 (x : Z) :
  0 <= x -> (forall n, 64 <= n -> Z.testbit x n = false) -> x < 2 ^ 64.
Proof.
  intros Hx Hb. destruct (Z.lt_ge_cases x (2 ^ 64)) as [|Hge]; [assumption|].
  assert (Hpos : 0 < x) by lia.
  assert (Hl : 64 <= Z.log2 x) by (apply Z.log2_le_pow2; lia).
  pose proof (Z.bit_log2 x Hpos) as Ht. rewrite (Hb _ Hl) in Ht.
  discriminate.
Qed.

Section FingerprintTheorems.

Variable char_is_signed : bool.

Lemma hash_loop_range (token : string) :
  forall hash, is_uint64 hash ->
               is_uint64 (hash_loop char_is_signed token hash).
Proof.
  unfold is_uint64.
  induction token as [|c token IH]; intros hash H; cbn [hash_loop];
    [assumption|].
  apply IH. unfold uint64. apply Z.mod_pos_bound. lia.
Qed.

Lemma weigh_tokens_length (tokens : list string) :
  forall w, List.length w = 64%nat ->
            List.length (weigh_tokens char_is_signed tokens w) = 64%nat.
Proof.
  induction tokens as [|t ts IH]; intros w Hw.
  - now rewrite weigh_tokens_nil.
  - rewrite weigh_tokens_cons. apply IH. now apply update_weights_nth.
Qed.

Lemma tally_nil (k : nat) : tally char_is_signed k [] = 0.
Proof. reflexivity. Qed.

Lemma tally_cons (k : nat) (t : string) (ts : list string) :
  tally char_is_signed k (t :: ts)
  = (if Z.testbit (HashToken char_is_signed t) (Z.of_nat k) then 1 else -1)
    + tally char_is_signed k ts.
Proof. reflexivity. Qed.

(** While the counters stay within [int], each weight is the tally of its
    bit. *)
Lemma weigh_tokens_nth (k : nat) (tokens : list string) :
  (k < 64)%nat ->
  forall w,
    List.length w = 64%nat ->
    Z.abs (nth k w 0) + Z.of_nat (List.length tokens) <= INT_MAX ->
    nth k (weigh_tokens char_is_signed tokens w) 0
    = nth k w 0 + tally char_is_signed k tokens.
Proof.
  intros Hk. induction tokens as [|t ts IH]; intros w Hw Hb.
  - rewrite weigh_tokens_nil. cbn. lia.
  - rewrite weigh_tokens_cons, tally_cons.
    destruct (update_weights_nth (HashToken char_is_signed t) w Hw)
      as [Hl Hn].
    specialize (Hn k Hk). cbn [List.length] in Hb.
    rewrite int_wrap_id in Hn
      by (unfold INT_MAX in *;
          destruct (Z.testbit (HashToken char_is_signed t) (Z.of_nat k)); lia).
    rewrite IH; [rewrite Hn; lia|assumption|].
    rewrite Hn.
    destruct (Z.testbit (HashToken char_is_signed t) (Z.of_nat k)); lia.
Qed.

Lemma Generate_testbit (input : string) (k : nat) :
  Z.of_nat (List.length (sim_tokens input)) <= INT_MAX ->
  Z.testbit (Generate char_is_signed input) (Z.of_nat k)
  = (k <? 64)%nat && (0 <? tally char_is_signed k (sim_tokens input)).
Proof.
  intros Hb. rewrite Generate_eq, collapse_weights_testbit.
  destruct (Nat.ltb_spec k 64) as [Hk|Hk]; [|reflexivity]. cbn [andb].
  rewrite weigh_tokens_nth; try assumption.
  - now rewrite nth_repeat.
  - apply repeat_length.
  - rewrite nth_repeat. cbn. lia.
Qed.

Lemma sim_tokens_bound (input : string) :
  Z.of_nat (String.length input) <= INT_MAX ->
  Z.of_nat (List.length (sim_tokens input)) <= INT_MAX.
Proof.
  intros H. pose proof (scan_tokens_length input "") as Hl.
  cbn [is_empty] in Hl. unfold sim_tokens. lia.
Qed.

Lemma tally_permutation (k : nat) (ts ts' : list string) :
  Permutation ts ts' -> tally char_is_signed k ts = tally char_is_signed k ts'.
Proof.
  induction 1 as [|t ts ts' HP IH|t u ts|ts1 ts2 ts3 H1 IH1 H2 IH2].
  - reflexivity.
  - rewrite !tally_cons. lia.
  - rewrite !tally_cons. lia.
  - congruence.
Qed.

(** [HashToken] and [Generate] return 64-bit words. *)
Theorem fingerprint_range (token input : string) :
  is_uint64 (HashToken char_is_signed token) /\
  is_uint64 (Generate char_is_signed input).
Proof.
  split.
  - apply hash_loop_range. unfold is_uint64. lia.
  - unfold is_uint64. rewrite Generate_eq.
    split; [apply collapse_weights_nonneg|].
    apply below_pow2_64; [apply collapse_weights_nonneg|].
    intros n Hn. rewrite <- (Z2Nat.id n) by lia.
    rewrite collapse_weights_testbit.
    now rewrite (proj2 (Nat.ltb_ge (Z.to_nat n) 64)) by lia.
Qed.

(** SimHash by majority: on a text shorter than 2 GiB, bit [k] of the
    fingerprint is set exactly when more tokens have the bit set in their
    hash than have it clear; a tie leaves the bit clear. *)
Theorem Generate_majority (input : string) (k : nat) :
  Z.of_nat (String.length input) <= INT_MAX ->
  (k < 64)%nat ->
  Z.testbit (Generate char_is_signed input) (Z.of_nat k)
  = (0 <? tally char_is_signed k (sim_tokens input)).
Proof.
  intros Hlen Hk. rewrite Generate_testbit by now apply sim_tokens_bound.
  now rewrite (proj2 (Nat.ltb_lt k 64)).
Qed.

(** A text without any token, in particular the empty text, has the
    fingerprint 0. *)
Theorem Generate_no_token (input : string) :
  all_chars is_delimiter_char input = true ->
  Generate char_is_signed input = 0.
Proof.
  intros H. apply Z.bits_inj'. intros n Hn.
  rewrite Z.bits_0, <- (Z2Nat.id n) by lia.
  rewrite Generate_testbit; rewrite (sim_tokens_none _ H).
  - cbn. apply andb_false_r.
  - cbn. unfold INT_MAX. lia.
Qed.

(** The fingerprint of a text with a single token is the hash of that
    token, whatever delimiters surround it. *)
Theorem Generate_single_token (ws1 t ws2 : string) :
  all_chars is_delimiter_char ws1 = true ->
  t <> "" -> all_chars (fun c => negb (is_delimiter_char c)) t = true ->
  all_chars is_delimiter_char ws2 = true ->
  Generate char_is_signed (ws1 ++ t ++ ws2) = HashToken char_is_signed t.
Proof.
  intros H1 Hne Ht H2. apply Z.bits_inj'. intros n Hn.
  rewrite <- (Z2Nat.id n) by lia.
  pose proof (sim_tokens_single ws1 t ws2 H1 Hne Ht H2) as E.
  rewrite Generate_testbit; rewrite E; [|cbn; unfold INT_MAX; lia].
  rewrite tally_cons, tally_nil, Z.add_0_r.
  destruct (Nat.ltb_spec (Z.to_nat n) 64) as [Hk|Hk]; cbn [andb].
  - now destruct (Z.testbit (HashToken char_is_signed t) (Z.of_nat (Z.to_nat n))).
  - symmetry. apply testbit_above_64; [|lia].
    apply hash_loop_range. unfold is_uint64. lia.
Qed.

(** Texts shorter than 2 GiB whose tokens are rearrangements of each
    other have the same fingerprint: neither the order of the words nor
    the whitespace between them matters. *)
Theorem Generate_permutation (a b : string) :
  Z.of_nat (String.length a) <= INT_MAX ->
  Z.of_nat (String.length b) <= INT_MAX ->
  Permutation (sim_tokens a) (sim_tokens b) ->
  Generate char_is_signed a = Generate char_is_signed b.
Proof.
  intros Ha Hb HP. apply Z.bits_inj'. intros n Hn.
  rewrite <- (Z2Nat.id n) by lia.
  rewrite !Generate_testbit by now apply sim_tokens_bound.
  now rewrite (tally_permutation _ _ _ HP).
Qed.

End FingerprintTheorems.

Lemma Generate_majority_witness :
  Z.testbit (Generate true "to be or not to be") (Z.of_nat 5)
  = (0 <? tally true 5 (sim_tokens "to be or not to be")).
Proof.
  apply (Generate_majority true "to be or not to be" 5).
  - vm_compute. discriminate.
  - lia.
Defined.

Lemma Generate_no_token_witness :
  Generate false (String " " (String tab (String newline ""))) = 0.
Proof. apply Generate_no_token. reflexivity. Defined.

Lemma Generate_single_token_witness :
  Generate true ("  " ++ "token" ++ String newline "") = HashToken true "token".
Proof.
  apply (Generate_single_token true "  " "token" (String newline ""));
    try reflexivity.
  discriminate.
Defined.

Lemma Generate_permutation_witness :
  Generate true "b a" = Generate true "a  b".
Proof.
  apply Generate_permutation.
  - vm_compute. discriminate.
  - vm_compute. discriminate.
  - change (Permutation ["b"; "a"] ["a"; "b"]). apply perm_swap.
Defined.

(** ** QLearningCore *)

Lemma vector_set_length {A : Type} (v : list A) :
  forall i x, List.length (vector_set v i x) = List.length v.
Proof.
  induction v as [|y v IH]; intros [|i] x; cbn; try reflexivity.
  now rewrite IH.
Qed.

Lemma vector_set_nth {A : Type} (d : A) (v : list A) :
  forall i k x,
    nth k (vector_set v i x) d
    = if (k =? i)%nat && (i <? List.length v)%nat then x else nth k v d.
Proof.
  induction v as [|y v IH]; intros i k x.
  - destruct i, k; cbn; rewrite ?andb_false_r; reflexivity.
  - destruct i as [|i], k as [|k]; cbn [vector_set nth]; try reflexivity.
    rewrite IH. reflexivity.
Qed.

Lemma vector_set_Forall {A : Type} (P : A -> Prop) (v : list A) :
  forall i x, Forall P v -> P x -> Forall P (vector_set v i x).
Proof.
  induction v as [|y v IH]; intros [|i] x Hv Hx; cbn; try assumption.
  - inversion Hv; subst. now constructor.
  - inversion Hv; subst. constructor; [assumption|now apply IH].
Qed.

Lemma nth_Forall_length {A : Type} (n : nat) (table : list (list A))
    (i : nat) :
  Forall (fun row => List.length row = n) table ->
  (i < List.length table)%nat -> List.length (nth i table []) = n.
Proof.
  intros H Hi. rewrite Forall_forall in H. apply H. now apply nth_In.
Qed.

Section QLearningFacts.

Context {arithmetic : Arithmetic}.



Lemma get_action_frame (q : QLearningCore) (state : Z) :
  q_table_ (fst (get_action q state)) = q_table_ q /\
  state_size_ (fst (get_action q state)) = state_size_ q /\
  action_size_ (fst (get_action q state)) = action_size_ q /\
  (forall e, snd (get_action q state) = Throw e ->
             e = out_of_range "State index out of range").
Proof.
  unfold get_action.
  destruct ((state <? 0) || (state >=? state_size_ q)).
  - cbn. repeat split. intros e H. now injection H as <-.
  - destruct (draw (gen_ q)) as [r gen1].
    destruct (double_lt r (epsilon_ q)).
    + destruct (draw gen1) as [r2 gen2]. cbn. repeat split. discriminate.
    + cbn. repeat split. discriminate.
Qed.


End QLearningFacts.

Lemma index_check_false (x n : Z) :
  (x <? 0) || (x >=? n) = false <-> 0 <= x < n.
Proof.
  rewrite orb_false_iff, Z.ltb_ge. split.
  - intros [H1 H2]. split; [assumption|].
    destruct (Z.lt_ge_cases x n) as [|H]; [assumption|].
    apply Z.geb_le in H. congruence.
  - intros [H1 H2]. split; [assumption|].
    destruct (x >=? n) eqn:E; [|reflexivity]. apply Z.geb_le in E. lia.
Qed.

Lemma index_check_true (x n : Z) :
  (x <? 0) || (x >=? n) = true <-> x < 0 \/ n <= x.
Proof.
  destruct ((x <? 0) || (x >=? n)) eqn:E.
  - split; [intros _|reflexivity].
    destruct (Z.lt_ge_cases x 0); [now left|].
    destruct (Z.lt_ge_cases x n); [|now right].
    assert ((x <? 0) || (x >=? n) = false) by (apply index_check_false; lia).
    congruence.
  - apply index_check_false in E. split; [discriminate|lia].
Qed.

Section QLearningUpdates.

Context {arithmetic : Arithmetic}.

Lemma well_formed_same (q q' : QLearningCore) :
  state_size_ q' = state_size_ q -> action_size_ q' = action_size_ q ->
  q_table_ q' = q_table_ q -> well_formed q -> well_formed q'.
Proof. unfold well_formed. intros -> -> ->. exact (fun H => H). Qed.

(** [update_q_value] throws [out_of_range], leaving everything as it
    was, exactly when one of its three indices is outside the table.
    Otherwise it writes the new value into the one entry
    [q_table_[state][action]]: every other entry, the sizes and the
    random engine stay as they were, and so does the shape of the
    table. *)
Theorem update_q_value_spec (q : QLearningCore) (state action : Z)
    (reward : double) (next_state : Z) :
  well_formed q ->
  (0 <= state < state_size_ q /\ 0 <= action < action_size_ q /\
   0 <= next_state < state_size_ q ->
   exists q',
     update_q_value q state action reward next_state = (q', Return tt) /\
     well_formed q' /\
     gen_ q' = gen_ q /\
     (forall s a, s <> Z.to_nat state \/ a <> Z.to_nat action ->
        q_value (q_table_ q') s a = q_value (q_table_ q) s a) /\
     q_value (q_table_ q') (Z.to_nat state) (Z.to_nat action)
     = let current_q :=
         q_value (q_table_ q) (Z.to_nat state) (Z.to_nat action) in
       let next_state_actions := nth (Z.to_nat next_state) (q_table_ q) [] in
       let max_next_q :=
         nth (max_element next_state_actions) next_state_actions double_zero in
       double_add current_q
         (double_mul (learning_rate_ q)
            (double_sub
               (double_add reward (double_mul (discount_factor_ q) max_next_q))
               current_q))) /\
  (~ (0 <= state < state_size_ q /\ 0 <= action < action_size_ q /\
      0 <= next_state < state_size_ q) ->
   exists what,
     update_q_value q state action reward next_state
     = (q, Throw (out_of_range what))).
Proof.
  intros (Hs & Ha & Hrows & Hcols). unfold update_q_value. split.
  - intros (H1 & H2 & H3).
    rewrite (proj2 (index_check_false _ _) H1),
            (proj2 (index_check_false _ _) H2),
            (proj2 (index_check_false _ _) H3).
    cbv zeta. eexists. split; [reflexivity|].
    assert (Hlen : List.length (nth (Z.to_nat state) (q_table_ q) [])
                   = Z.to_nat (action_size_ q))
      by (apply nth_Forall_length; [assumption|lia]).
    split; [|split; [reflexivity|split]].
    + unfold well_formed. cbn [with_q_table state_size_ action_size_ q_table_].
      rewrite vector_set_length. repeat split; try assumption.
      apply vector_set_Forall; [assumption|].
      now rewrite vector_set_length.
    + intros s a Hsa. cbn [with_q_table q_table_]. unfold q_value.
      rewrite (vector_set_nth []).
      destruct (Nat.eqb_spec s (Z.to_nat state)) as [->|Hne];
        [|reflexivity].
      destruct (Nat.ltb_spec (Z.to_nat state) (List.length (q_table_ q)));
        [|reflexivity].
      cbn [andb]. rewrite vector_set_nth.
      destruct (Nat.eqb_spec a (Z.to_nat action)) as [->|Hne];
        [|reflexivity].
      destruct Hsa; congruence.
    + cbn [with_q_table q_table_]. unfold q_value at 1.
      rewrite (vector_set_nth []), Nat.eqb_refl.
      rewrite (proj2 (Nat.ltb_lt _ _)) by lia. cbn [andb].
      rewrite vector_set_nth, Nat.eqb_refl.
      rewrite (proj2 (Nat.ltb_lt _ _)) by lia. reflexivity.
  - intros Hn.
    destruct ((state <? 0) || (state >=? state_size_ q)) eqn:E1; [eauto|].
    destruct ((action <? 0) || (action >=? action_size_ q)) eqn:E2; [eauto|].
    destruct ((next_state <? 0) || (next_state >=? state_size_ q)) eqn:E3;
      [eauto|].
    apply index_check_false in E1, E2, E3. tauto.
Qed.

Lemma update_q_value_frame (q : QLearningCore) (state action : Z)
    (reward : double) (next_state : Z) :
  well_formed q ->
  well_formed (fst (update_q_value q state action reward next_state)).
Proof.
  intros Hq. unfold update_q_value.
  destruct ((state <? 0) || (state >=? state_size_ q)) eqn:E1; [exact Hq|].
  destruct ((action <? 0) || (action >=? action_size_ q)); [exact Hq|].
  destruct ((next_state <? 0) || (next_state >=? state_size_ q));
    [exact Hq|].
  apply index_check_false in E1.
  destruct Hq as (Hs & Ha & Hrows & Hcols).
  cbv zeta. unfold well_formed.
  cbn [fst with_q_table state_size_ action_size_ q_table_].
  rewrite vector_set_length. repeat split; try assumption.
  apply vector_set_Forall; [assumption|].
  rewrite vector_set_length. apply nth_Forall_length; [assumption|lia].
Qed.

Lemma batch_loop_shift (indices : list nat) (s a n : Z) (r : double)
    (states actions : list Z) (rewards : list double) (next_states : list Z) :
  forall q,
    batch_loop (map S indices) (s :: states) (a :: actions) (r :: rewards)
      (n :: next_states) q
    = batch_loop indices states actions rewards next_states q.
Proof.
  induction indices as [|i indices IH]; intros q; cbn [map batch_loop nth];
    [reflexivity|].
  destruct (update_q_value q _ _ _ _) as [q' [u|e]]; [apply IH|reflexivity].
Qed.

(** [batch_update_q_values] throws [invalid_argument], changing nothing,
    when the four vectors differ in size.  Otherwise it performs the
    updates one after the other; the first one that throws ends the
    batch, and the updates made before it stay in the table. *)
Theorem batch_update_q_values_spec (q : QLearningCore) :
  (forall states actions rewards next_states,
      List.length actions <> List.length states \/
      List.length rewards <> List.length states \/
      List.length next_states <> List.length states ->
      batch_update_q_values q states actions rewards next_states
      = (q, Throw (invalid_argument
                     "All input vectors must have the same size"))) /\
  batch_update_q_values q [] [] [] [] = (q, Return tt) /\
  (forall s states a actions r rewards n next_states,
      List.length actions = List.length states ->
      List.length rewards = List.length states ->
      List.length next_states = List.length states ->
      batch_update_q_values q (s :: states) (a :: actions) (r :: rewards)
        (n :: next_states)
      = match update_q_value q s a r n with
        | (q', Return _) =>
            batch_update_q_values q' states actions rewards next_states
        | (q', Throw e) => (q', Throw e)
        end).
Proof.
  split; [|split].
  - intros states actions rewards next_states H.
    unfold batch_update_q_values. cbv zeta.
    destruct (Nat.eqb_spec (List.length actions) (List.length states));
      [|reflexivity].
    destruct (Nat.eqb_spec (List.length rewards) (List.length states));
      [|reflexivity].
    destruct (Nat.eqb_spec (List.length next_states) (List.length states));
      [|reflexivity].
    lia.
  - reflexivity.
  - intros s states a actions r rewards n next_states H1 H2 H3.
    unfold batch_update_q_values. cbv zeta. cbn [List.length].
    rewrite H1, H2, H3, !Nat.eqb_refl. cbn [negb orb].
    cbn [seq batch_loop nth].
    destruct (update_q_value q s a r n) as [q' [u|e]]; [|reflexivity].
    rewrite <- seq_shift. apply batch_loop_shift.
Qed.

Lemma batch_loop_frame (indices : list nat) (states actions : list Z)
    (rewards : list double) (next_states : list Z) :
  forall q,
    well_formed q ->
    well_formed
      (fst (batch_loop indices states actions rewards next_states q)).
Proof.
  induction indices as [|i indices IH]; intros q Hq; cbn [batch_loop];
    [exact Hq|].
  pose proof (update_q_value_frame q (nth i states 0) (nth i actions 0)
                (nth i rewards double_zero) (nth i next_states 0) Hq) as H.
  destruct (update_q_value q _ _ _ _) as [q' [u|e]]; cbn [fst] in H.
  - now apply IH.
  - exact H.
Qed.

Lemma path_loop_frame (rounds : nat) (end_state : Z) :
  forall q current path,
    let r := path_loop rounds end_state q current path in
    q_table_ (fst r) = q_table_ q /\
    state_size_ (fst r) = state_size_ q /\
    action_size_ (fst r) = action_size_ q /\
    (forall e, snd r = Throw e ->
               e = out_of_range "State index out of range").
Proof.
  induction rounds as [|rounds IH]; intros q current path; cbv zeta;
    cbn [path_loop].
  - cbn. repeat split. discriminate.
  - destruct (current =? end_state); [cbn; repeat split; discriminate|].
    destruct (get_action_frame q current) as (Ht & Hs & Ha & He).
    destruct (get_action q current) as [q1 [action|e]]; cbn [fst snd] in *.
    + destruct (IH q1 (Z.rem (current + action) (state_size_ q1))
                  (push_back path (Z.rem (current + action) (state_size_ q1))))
        as (Ht' & Hs' & Ha' & He').
      repeat split; try congruence. exact He'.
    + repeat split; try assumption. intros e' H. injection H as <-.
      now apply He.
Qed.

Lemma path_loop_spec (rounds : nat) (end_state : Z) :
  forall q current front q' path',
    path_loop rounds end_state q current (front ++ [current])
    = (q', Return path') ->
    ~ In end_state front ->
    exists more,
      path' = (front ++ [current]) ++ more /\
      (List.length more <= rounds)%nat /\
      ~ In end_state (removelast path') /\
      ((List.length more < rounds)%nat ->
       exists before, path' = before ++ [end_state]) /\
      (current = end_state -> more = [] /\ q' = q).
Proof.
  induction rounds as [|rounds IH]; intros q current front q' path' H Hf;
    cbn [path_loop] in H.
  - injection H as <- <-. exists []. rewrite app_nil_r, removelast_last.
    split; [reflexivity|]. split; [cbn; lia|]. split; [assumption|].
    split; [cbn; lia|auto].
  - destruct (Z.eqb_spec current end_state) as [->|Hne].
    + injection H as <- <-. exists []. rewrite app_nil_r, removelast_last.
      split; [reflexivity|]. split; [cbn; lia|]. split; [assumption|].
      split; [eauto|auto].
    + destruct (get_action q current) as [q1 [action|e]]; [|discriminate].
      unfold push_back in H.
      apply IH in H as (more & -> & Hl & Hr & Hlast & _).
      * exists (Z.rem (current + action) (state_size_ q1) :: more).
        split; [now rewrite <- !app_assoc|].
        split; [cbn [List.length]; lia|]. split; [assumption|].
        split; [|intros Heq; contradiction].
        intros Hm. cbn [List.length] in Hm. apply Hlast. lia.
      * intros Hin. apply in_app_iff in Hin as [Hin|[Heq|[]]];
          [contradiction|congruence].
Qed.

(** [find_optimal_path] throws [out_of_range] for a start or end state
    outside the table.  A path it returns begins with the start state,
    makes at most [max_steps] moves, holds the end state nowhere but
    possibly at its end, and ends there whenever it stops before
    [max_steps] moves; it is just the start state when that is the end
    state.  The table is never changed, and the only exception past the
    two checks is [out_of_range]. *)
Theorem find_optimal_path_spec (q : QLearningCore)
    (start_state end_state max_steps : Z) :
  (start_state < 0 \/ state_size_ q <= start_state ->
   find_optimal_path q start_state end_state max_steps
   = (q, Throw (out_of_range "Start state index out of range"))) /\
  (0 <= start_state < state_size_ q ->
   end_state < 0 \/ state_size_ q <= end_state ->
   find_optimal_path q start_state end_state max_steps
   = (q, Throw (out_of_range "End state index out of range"))) /\
  (forall q' path,
      find_optimal_path q start_state end_state max_steps
      = (q', Return path) ->
      q_table_ q' = q_table_ q /\
      (exists moves,
          path = start_state :: moves /\
          Z.of_nat (List.length moves) <= Z.max 0 max_steps) /\
      ~ In end_state (removelast path) /\
      (Z.of_nat (List.length path) <= max_steps ->
       exists before, path = before ++ [end_state]) /\
      (start_state = end_state -> path = [start_state] /\ q' = q)) /\
  (forall q' e,
      find_optimal_path q start_state end_state max_steps = (q', Throw e) ->
      (exists what, e = out_of_range what) /\ q_table_ q' = q_table_ q).
Proof.
  unfold find_optimal_path. split; [|split; [|split]].
  - intros H. now rewrite (proj2 (index_check_true _ _) H).
  - intros H1 H2.
    now rewrite (proj2 (index_check_false _ _) H1),
                (proj2 (index_check_true _ _) H2).
  - intros q' path H.
    destruct ((start_state <? 0) || (start_state >=? state_size_ q));
      [discriminate|].
    destruct ((end_state <? 0) || (end_state >=? state_size_ q));
      [discriminate|].
    pose proof (path_loop_frame (Z.to_nat max_steps) end_state q start_state
                  [start_state]) as (Ht & _). cbv zeta in Ht.
    rewrite H in Ht. cbn [fst] in Ht.
    apply (path_loop_spec _ _ _ _ []) in H
      as (more & -> & Hl & Hr & Hlast & Hsame); [|intros []].
    cbn [app] in *. split; [assumption|].
    split; [exists more; split; [reflexivity|lia]|].
    split; [assumption|]. split.
    + intros Hm. cbn [List.length] in Hm. apply Hlast. lia.
    + intros Heq. destruct (Hsame Heq) as [-> ->]. auto.
  - intros q' e H.
    destruct ((start_state <? 0) || (start_state >=? state_size_ q)).
    { injection H as <- <-. eauto. }
    destruct ((end_state <? 0) || (end_state >=? state_size_ q)).
    { injection H as <- <-. eauto. }
    pose proof (path_loop_frame (Z.to_nat max_steps) end_state q start_state
                  [start_state]) as (Ht & _ & _ & He). cbv zeta in Ht, He.
    rewrite H in Ht, He. cbn [fst snd] in Ht, He.
    split; [|assumption]. rewrite (He e eq_refl). eauto.
Qed.

(** The constructor, given sizes that are not negative, builds a table
    of the declared shape holding zeros; every operation keeps the
    shape. *)
Theorem well_formed_invariant :
  (forall state_size action_size learning_rate discount_factor epsilon seed,
      0 <= state_size -> 0 <= action_size ->
      let q := QLearningCore_new state_size action_size learning_rate
                 discount_factor epsilon seed in
      well_formed q /\
      forall s a, q_value (q_table_ q) s a = double_zero) /\
  (forall q, well_formed q ->
     (forall state, well_formed (fst (get_action q state))) /\
     (forall state action reward next_state,
         well_formed (fst (update_q_value q state action reward next_state)))
     /\
     (forall states actions rewards next_states,
         well_formed
           (fst (batch_update_q_values q states actions rewards next_states)))
     /\
     (forall start_state end_state max_steps,
         well_formed
           (fst (find_optimal_path q start_state end_state max_steps)))).
Proof.
  split.
  - intros ss acs lr df eps seed Hs Ha. cbv zeta. split.
    + unfold well_formed, QLearningCore_new.
      cbn [state_size_ action_size_ q_table_].
      rewrite repeat_length. repeat split; try assumption.
      apply Forall_forall. intros row Hrow. apply repeat_spec in Hrow.
      subst row. apply repeat_length.
    + intros s a. unfold q_value, QLearningCore_new. cbn [q_table_].
      destruct (Nat.lt_ge_cases s (Z.to_nat ss)) as [Hlt|Hge].
      * rewrite nth_repeat_lt by assumption.
        destruct (Nat.lt_ge_cases a (Z.to_nat acs)).
        -- now rewrite nth_repeat_lt.
        -- apply nth_overflow. now rewrite repeat_length.
      * rewrite (nth_overflow (repeat (repeat double_zero (Z.to_nat acs))
                                 (Z.to_nat ss)) [])
          by now rewrite repeat_length.
        now destruct a.
  - intros q Hq. split; [|split; [|split]].
    + intros state.
      destruct (get_action_frame q state) as (Ht & Hs & Ha & _).
      now apply (well_formed_same q).
    + intros. now apply update_q_value_frame.
    + intros states actions rewards next_states.
      unfold batch_update_q_values. cbv zeta.
      destruct (_ || _); [exact Hq|]. now apply batch_loop_frame.
    + intros start_state end_state max_steps. unfold find_optimal_path.
      destruct (_ || _); [exact Hq|]. destruct (_ || _); [exact Hq|].
      destruct (path_loop_frame (Z.to_nat max_steps) end_state q start_state
                  [start_state]) as (Ht & Hs & Ha & _).
      now apply (well_formed_same q).
Qed.

End QLearningUpdates.

Lemma demo_core_well_formed : well_formed demo_core.
Proof.
  unfold well_formed. cbn. repeat split; try lia. repeat constructor.
Qed.


Lemma update_q_value_spec_witness :
  exists what,
    update_q_value demo_core 1 5 (0 : @double integer_arithmetic) 1
    = (demo_core, Throw (out_of_range what)).
Proof.
  apply (update_q_value_spec demo_core 1 5 (0 : @double integer_arithmetic) 1
           demo_core_well_formed).
  cbn. lia.
Defined.
